(** * ATM-LLD: the Account, User, BankService and ATM classes of src/code.cpp

    A shallow embedding of the C++ classes and the properties of them that the
    specification states.

    - [double] is IEEE 754 binary64, the kernel's primitive [float]: [+], [-]
      and [<?] below round and compare exactly as the C++ operators do.
    - Objects reached through pointers ([Account*], [User*]) live in a [Heap]
      of addresses; [nullptr] is [None]; dereferencing an address that holds
      no object is undefined behaviour, the [None] of the [option] that such
      operations return.
    - [cout] is the list of what was streamed to it, in order, one chunk per
      [operator<<]; a [double] is kept as the value handed to [operator<<],
      not as the digits that the stream then writes at its precision.
    - The wall clock read by [Transaction::getCurrentTime] is an argument
      [now], the string [ctime] returned at that call. *)

From Stdlib Require Import ZArith Floats String List Lia.
From stdpp Require Import gmap strings list.
Import ListNotations.

(** Decimal literals such as [0.3] denote the nearest binary64 value, as the
    same literal does in C++. *)
Set Warnings "-inexact-float".

Local Open Scope string_scope.
Local Open Scope list_scope.

(** ** Primitive types *)

Abbreviation double := float.

(** [x > y] on [double]: the primitive comparison is [<], and IEEE 754 defines
    [x > y] as [y < x] (false as soon as one side is a NaN). *)
Definition gtb (x y : double) : bool := (y <? x)%float.
Infix ">?" := gtb (at level 70, no associativity) : float_scope.
Arguments gtb : simpl never.

(** What one [operator<<] streamed to [cout]: a string, written as it is; a
    [double], kept here as the value handed over (the stream formats it at
    its precision, 6 significant digits unless set otherwise, so the digits
    written need not tell the value); or [endl]. *)
Inductive chunk :=
| Str (s : string)
| Dbl (d : double)
| Endl.

Definition ostream := list chunk.

(** The character written by ["\n"]. *)
Definition nl : string := String (Ascii.ascii_of_nat 10) EmptyString.

(** An address in the heap. *)
Definition ptr := positive.

(** ** Transaction (src/code.cpp, 78-102) *)

Inductive TransactionType := DEPOSIT | WITHDRAW.

Module Transaction.

Record t := mk {
  type : TransactionType;
  amount : double;
  timestamp : string
}.

(** [Transaction(TransactionType t, double amt)]: the timestamp is the clock
    reading [now] at construction. *)
Definition new (now : string) (ty : TransactionType) (amt : double) : t :=
  {| type := ty; amount := amt; timestamp := now |}.

Definition show (tr : t) : ostream :=
  let tType := match type tr with DEPOSIT => "Deposit" | WITHDRAW => "Withdraw" end in
  [Str (timestamp tr); Str " | "; Str tType; Str " | Amount: $"; Dbl (amount tr); Endl].

End Transaction.

(** ** Account (src/code.cpp, 105-154)

    Every method holds the account's [lock_guard] from its first statement to
    its return; in this sequential semantics the mutex is free before and
    after each call, so it carries no state. *)

Module Account.

Record t := mk {
  accountNumber : string;
  balance : double;
  transactions : list Transaction.t
}.

(** [Account(string accNum, double bal = 0)] *)
Definition new (accNum : string) (bal : double) : t :=
  {| accountNumber := accNum; balance := bal; transactions := [] |}.

Definition getAccountNumber (a : t) : string := accountNumber a.

Definition deposit (now : string) (amount : double) (a : t) : t * ostream :=
  let balance' := (balance a + amount)%float in
  ({| accountNumber := accountNumber a;
      balance := balance';
      transactions := transactions a ++ [Transaction.new now DEPOSIT amount] |},
   [Str "Deposit successful! Balance: $"; Dbl balance'; Endl]).

Definition withdraw (now : string) (amount : double) (a : t) : bool * t * ostream :=
  if (amount >? balance a)%float then
    (false, a, [Str "Insufficient funds!"; Endl])
  else
    let balance' := (balance a - amount)%float in
    (true,
     {| accountNumber := accountNumber a;
        balance := balance';
        transactions := transactions a ++ [Transaction.new now WITHDRAW amount] |},
     [Str "Withdrawal successful! Balance: $"; Dbl balance'; Endl]).

Definition getBalance (a : t) : double := balance a.

Definition showTransactions (a : t) : ostream :=
  match transactions a with
  | [] => [Str "No transactions yet."; Endl]
  | ts =>
      [Str "Transaction history for account "; Str (accountNumber a); Str (":" +:+ nl)]
      ++ concat (map Transaction.show ts)
  end.

End Account.

(** ** User (src/code.cpp, 157-171) *)

Module User.

Record t := mk {
  name : string;
  pin : string;
  accounts : list ptr
}.

(** [User(string n, string p)] *)
Definition new (n p : string) : t := {| name := n; pin := p; accounts := [] |}.

(** [pin == inputPin] on [std::string]: equal length and equal characters. *)
Definition authenticate (inputPin : string) (u : t) : bool :=
  String.eqb (pin u) inputPin.

Definition addAccount (account : ptr) (u : t) : t :=
  {| name := name u; pin := pin u; accounts := accounts u ++ [account] |}.

Definition getAccounts (u : t) : list ptr := accounts u.

End User.

(** ** The heap of objects allocated with [new] *)

Record Heap := mkHeap {
  accountAt : gmap ptr Account.t;
  userAt : gmap ptr User.t
}.

Definition storeAccount (p : ptr) (a : Account.t) (h : Heap) : Heap :=
  {| accountAt := <[p := a]> (accountAt h); userAt := userAt h |}.

(** ** IBankService (src/code.cpp, 174-183)

    The pure virtual methods, over the state [S] of an implementation.  A call
    may write to the accounts of the heap and to [cout]. *)

Class IBankService (S : Type) := {
  deposit : string → string → double → S → Heap → option (bool * Heap * ostream);
  withdraw : string → string → double → S → Heap → option (bool * Heap * ostream);
  getBalance : string → S → Heap → option double;
  showTransactions : string → S → Heap → option ostream;
  getUserByAccount : string → S → option ptr;
  getAccount : string → S → option ptr
}.

(** ** BankService (src/code.cpp, 186-234) *)

Module BankService.

Record t := mk {
  users : gmap string ptr;
  accounts : gmap string ptr
}.

(** A default-constructed [BankService]: both maps empty. *)
Definition new : t := {| users := ∅; accounts := ∅ |}.

(** One turn of the loop of [addUser], for the element [acc] of
    [user->getAccounts()]. *)
Definition addUser_step (h : Heap) (user acc : ptr) (b : t) : option t :=
  match accountAt h !! acc with
  | None => None
  | Some a =>
      Some {| users := <[Account.getAccountNumber a := user]> (users b);
              accounts := <[Account.getAccountNumber a := acc]> (accounts b) |}
  end.

Fixpoint addUser_loop (h : Heap) (user : ptr) (accs : list ptr) (b : t) : option t :=
  match accs with
  | [] => Some b
  | acc :: rest =>
      match addUser_step h user acc b with
      | None => None
      | Some b' => addUser_loop h user rest b'
      end
  end.

Definition addUser (h : Heap) (user : ptr) (b : t) : option t :=
  match userAt h !! user with
  | None => None
  | Some u => addUser_loop h user (User.getAccounts u) b
  end.

(** [users[accNum]] is evaluated only after [find] succeeded, so
    [operator[]] inserts nothing and the maps are left as they were. *)
Definition getUserByAccount (accNum : string) (b : t) : option ptr :=
  match users b !! accNum with
  | Some user => Some user
  | None => None
  end.

Definition getAccount (accNum : string) (b : t) : option ptr :=
  match accounts b !! accNum with
  | Some acc => Some acc
  | None => None
  end.

Definition deposit (now accNum : string) (amount : double) (b : t) (h : Heap)
  : option (bool * Heap * ostream) :=
  match getAccount accNum b with
  | None => Some (false, h, [])
  | Some acc =>
      match accountAt h !! acc with
      | None => None
      | Some a =>
          let '(a', out) := Account.deposit now amount a in
          Some (true, storeAccount acc a' h, out)
      end
  end.

Definition withdraw (now accNum : string) (amount : double) (b : t) (h : Heap)
  : option (bool * Heap * ostream) :=
  match getAccount accNum b with
  | None => Some (false, h, [])
  | Some acc =>
      match accountAt h !! acc with
      | None => None
      | Some a =>
          let '(ok, a', out) := Account.withdraw now amount a in
          Some (ok, storeAccount acc a' h, out)
      end
  end.

Definition getBalance (accNum : string) (b : t) (h : Heap) : option double :=
  match getAccount accNum b with
  | None => Some (-1)%float
  | Some acc =>
      match accountAt h !! acc with
      | None => None
      | Some a => Some (Account.getBalance a)
      end
  end.

Definition showTransactions (accNum : string) (b : t) (h : Heap) : option ostream :=
  match getAccount accNum b with
  | None => Some []
  | Some acc =>
      match accountAt h !! acc with
      | None => None
      | Some a => Some (Account.showTransactions a)
      end
  end.

End BankService.

#[export] Instance BankService_IBankService : IBankService BankService.t := {
  deposit := BankService.deposit;
  withdraw := BankService.withdraw;
  getBalance := BankService.getBalance;
  showTransactions := BankService.showTransactions;
  getUserByAccount := BankService.getUserByAccount;
  getAccount := BankService.getAccount
}.

(** ** ATM (src/code.cpp, 237-307)

    [bankService] points to a service object that the ATM does not own; the
    methods below take the object it points to as [svc]. *)

Module ATM.

Record t := mk {
  currentUser : option ptr;
  currentAccount : option ptr
}.

(** [ATM(IBankService* service)]: both members start as [nullptr]. *)
Definition new : t := {| currentUser := None; currentAccount := None |}.

Definition login {S : Type} `{IBankService S}
  (svc : S) (h : Heap) (accNum pin : string) (atm : t) : option (bool * t * ostream) :=
  let failure := Some (false, atm, [Str ("Invalid account number or PIN." +:+ nl)]) in
  match getUserByAccount accNum svc with
  | None => failure
  | Some user =>
      match userAt h !! user with
      | None => None
      | Some u =>
          if User.authenticate pin u then
            Some (true,
                  {| currentUser := Some user; currentAccount := getAccount accNum svc |},
                  [Str ("Login successful!" +:+ nl)])
          else failure
      end
  end.

Definition logout (atm : t) : t * ostream :=
  ({| currentUser := None; currentAccount := None |},
   [Str ("Logged out successfully." +:+ nl)]).

(** *** [showMenu]

    What the environment supplies to one turn of the loop: the [int] that
    [cin >> choice] extracts, the [double] that [cin >> amount] extracts when
    the turn asks for one, and the clock reading of the turn.  The loop is
    modelled on inputs whose extractions all succeed. *)
Record turn := mkTurn {
  choice : Z;
  amount : double;
  now : string
}.

(** How a run over a finite input ends. *)
Inductive outcome :=
| Returned (atm : t) (h : Heap) (out : ostream)
    (** [showMenu] returned *)
| Undefined
    (** a null or dangling pointer was dereferenced *)
| Starved (atm : t) (h : Heap) (out : ostream)
    (** the input is used up and the loop is at its next [cin >> choice] *).

(** The seven lines that open each turn. *)
Definition menu : ostream :=
  [Str (nl +:+ "--- ATM Menu ---" +:+ nl);
   Str ("1. Check Balance" +:+ nl);
   Str ("2. Deposit" +:+ nl);
   Str ("3. Withdraw" +:+ nl);
   Str ("4. Show Transactions" +:+ nl);
   Str ("5. Logout" +:+ nl);
   Str "Enter choice: "].

(** [currentAccount->getAccountNumber()] *)
Definition currentAccountNumber (atm : t) (h : Heap) : option string :=
  match currentAccount atm with
  | None => None
  | Some acc =>
      match accountAt h !! acc with
      | None => None
      | Some a => Some (Account.getAccountNumber a)
      end
  end.

(** The [switch] of one turn. *)
Definition menu_switch {S : Type} `{IBankService S}
  (svc : S) (tn : turn) (atm : t) (h : Heap) : option (t * Heap * ostream) :=
  match choice tn with
  | 1%Z =>
      match currentAccountNumber atm h with
      | None => None
      | Some accNum =>
          match getBalance accNum svc h with
          | None => None
          | Some bal => Some (atm, h, [Str "Balance: $"; Dbl bal; Endl])
          end
      end
  | 2%Z =>
      match currentAccountNumber atm h with
      | None => None
      | Some accNum =>
          match deposit (now tn) accNum (amount tn) svc h with
          | None => None
          | Some (_, h', out) => Some (atm, h', Str "Enter amount to deposit: " :: out)
          end
      end
  | 3%Z =>
      match currentAccountNumber atm h with
      | None => None
      | Some accNum =>
          match withdraw (now tn) accNum (amount tn) svc h with
          | None => None
          | Some (_, h', out) => Some (atm, h', Str "Enter amount to withdraw: " :: out)
          end
      end
  | 4%Z =>
      match currentAccountNumber atm h with
      | None => None
      | Some accNum =>
          match showTransactions accNum svc h with
          | None => None
          | Some out => Some (atm, h, out)
          end
      end
  | 5%Z => let '(atm', out) := logout atm in Some (atm', h, out)
  | _ => Some (atm, h, [Str ("Invalid choice." +:+ nl)])
  end.

(** The [do ... while (choice != 5 && currentUser)] loop, one turn of input
    per iteration. *)
Fixpoint menu_loop {S : Type} `{IBankService S}
  (svc : S) (input : list turn) (atm : t) (h : Heap) (out : ostream) : outcome :=
  match input with
  | [] => Starved atm h out
  | tn :: rest =>
      match menu_switch svc tn atm h with
      | None => Undefined
      | Some (atm', h', o) =>
          let out' := out ++ menu ++ o in
          if negb (choice tn =? 5)%Z
             && match currentUser atm' with Some _ => true | None => false end
          then menu_loop svc rest atm' h' out'
          else Returned atm' h' out'
      end
  end.

Definition showMenu {S : Type} `{IBankService S}
  (svc : S) (input : list turn) (atm : t) (h : Heap) : outcome :=
  match currentUser atm with
  | None => Returned atm h [Str ("Please login first." +:+ nl)]
  | Some _ => menu_loop svc input atm h []
  end.

End ATM.

(** ** The bootstrap of [main] (src/code.cpp, 310-323) *)

Module Main.

Definition acc1 : ptr := 1%positive.
Definition acc2 : ptr := 2%positive.
Definition user1 : ptr := 1%positive.
Definition user2 : ptr := 2%positive.

(** The heap once both users own their account. *)
Definition heap : Heap :=
  {| accountAt := <[acc2 := Account.new "ACC2001" 500%float]>
                    (<[acc1 := Account.new "ACC1001" 1000%float]> ∅);
     userAt := <[user2 := User.addAccount acc2 (User.new "Bob" "4321")]>
                 (<[user1 := User.addAccount acc1 (User.new "Alice" "1234")]> ∅) |}.

(** The directory after [bank.addUser(user1); bank.addUser(user2);]. *)
Definition bank : BankService.t :=
  {| BankService.users := <["ACC2001" := user2]> (<["ACC1001" := user1]> ∅);
     BankService.accounts := <["ACC2001" := acc2]> (<["ACC1001" := acc1]> ∅) |}.

End Main.

(** ** Sequences of calls *)

(** [addUser] called once per element of [calls], each on the heap of its
    moment. *)
Fixpoint addUsers (calls : list (Heap * ptr)) (b : BankService.t) : option BankService.t :=
  match calls with
  | [] => Some b
  | (h, user) :: rest =>
      match BankService.addUser h user b with
      | None => None
      | Some b' => addUsers rest b'
      end
  end.

(** The front-end state [LoggedOut] of the session: no current user. *)
Definition LoggedOut (atm : ATM.t) : Prop := ATM.currentUser atm = None.

(** The users a directory points to are objects of the heap. *)
Definition users_live (b : BankService.t) (h : Heap) : Prop :=
  ∀ accNum user, BankService.users b !! accNum = Some user → is_Some (userAt h !! user).

(** A call that a client makes on one account, with the clock reading of its
    moment. *)
Inductive call :=
| call_deposit (now : string) (amount : double)
| call_withdraw (now : string) (amount : double).

Definition run_call (c : call) (a : Account.t) : Account.t :=
  match c with
  | call_deposit now amount => (Account.deposit now amount a).1
  | call_withdraw now amount => (Account.withdraw now amount a).1.2
  end.

(** The calls of [cs] made one after the other, first to last. *)
Definition run_calls (cs : list call) (a : Account.t) : Account.t :=
  fold_left (λ a c, run_call c a) cs a.

(** [x < 0] on [double]. *)
Definition negative (x : double) : bool := (x <? 0)%float.

(** The deposits of a sequence carry no amount below zero. *)
Definition deposit_not_negative (c : call) : Prop :=
  match c with
  | call_deposit _ amount => negative amount = false
  | call_withdraw _ _ => True
  end.

(** The amounts of a sequence are real numbers and those of its deposits are
    not negative: a deposit carries an amount [0 <= amount], a withdrawal a
    finite amount. *)
Definition amount_in_range (c : call) : Prop :=
  match c with
  | call_deposit _ amount => (0 <=? amount)%float = true
  | call_withdraw _ amount => is_finite amount = true
  end.

(** The value of a finite float as a whole number of units of [2 ^ emin],
    the weight of the last bit of the least subnormal. *)
Definition SFunits (prec emax : Z) (x : spec_float) : option Z :=
  match x with
  | S754_zero _ => Some 0%Z
  | S754_finite s m e => Some (cond_Zopp s (Z.pos m * 2 ^ (e - SpecFloat.emin prec emax)))%Z
  | S754_infinity _ | S754_nan => None
  end.

(** The value of a finite [double] in units of [2 ^ -1074]. *)
Definition units (x : double) : option Z := SFunits prec emax (Prim2SF x).

(** [x + y] is computed without rounding: both are finite and the sum of
    their values is the value of the [double] [x + y]. *)
Definition exact_sum (x y : double) : bool :=
  match units x, units y, units (x + y)%float with
  | Some vx, Some vy, Some vz => (vz =? vx + vy)%Z
  | _, _, _ => false
  end.

(** ** What the further properties are stated with *)

(** The balance that the transactions [ts] give when applied in order to the
    balance [bal]: a deposit adds its amount, a withdrawal subtracts it. *)
Definition replay (ts : list Transaction.t) (bal : double) : double :=
  fold_left
    (λ b tr,
       match Transaction.type tr with
       | DEPOSIT => (b + Transaction.amount tr)%float
       | WITHDRAW => (b - Transaction.amount tr)%float
       end)
    ts bal.

(** The [double] values handed to [operator<<], in order: the values that the
    stream formats, not the digits it writes. *)
Definition streamed_doubles (out : ostream) : list double :=
  flat_map (λ c, match c with Dbl d => [d] | _ => [] end) out.

(** The directory and the heap agree: every account entry points to a live
    account whose number is the entry's key, every user entry points to a
    live user, and the two maps have the same keys. *)
Definition directory_ok (b : BankService.t) (h : Heap) : Prop :=
  map_Forall
    (λ accNum acc, Account.getAccountNumber <$> accountAt h !! acc = Some accNum)
    (BankService.accounts b) ∧
  users_live b h ∧
  dom (BankService.users b) = dom (BankService.accounts b).

(** [directory_ok] of a given directory and heap, by evaluation. *)
Ltac evaluate_directory_ok :=
  lazymatch goal with
  | |- directory_ok ?b ?h =>
      split; [| split];
      [ apply (bool_decide_unpack _); vm_compute; exact I
      | change (map_Forall (λ _ user, is_Some (userAt h !! user)) (BankService.users b));
        apply (bool_decide_unpack _); vm_compute; exact I
      | apply (bool_decide_unpack _); vm_compute; exact I ]
  end.

(** The account numbers that the loop of [addUser] reads through the
    pointers [accs], in order. *)
Definition account_numbers (h : Heap) (accs : list ptr) : list string :=
  omap (λ acc, Account.getAccountNumber <$> accountAt h !! acc) accs.

(** The deposits and withdrawals that the turns of a menu session ask for, up
    to the first logout. *)
Fixpoint menu_calls (input : list ATM.turn) : list call :=
  match input with
  | [] => []
  | tn :: rest =>
      match ATM.choice tn with
      | 2%Z => call_deposit (ATM.now tn) (ATM.amount tn) :: menu_calls rest
      | 3%Z => call_withdraw (ATM.now tn) (ATM.amount tn) :: menu_calls rest
      | 5%Z => []
      | _ => menu_calls rest
      end
  end.

(** Some turn of the input asks for the logout. *)
Definition asks_logout (input : list ATM.turn) : bool :=
  existsb (λ tn, (ATM.choice tn =? 5)%Z) input.

(** * Properties *)

(** ** IEEE 754 facts

    Signs and order of sums and differences, first on the specification
    [spec_float] of any binary format, then on binary64. *)

Section SpecFloatFacts.
Variables prec emax : Z.

Lemma digits2_pos_bounds (m : positive) :
  (2 ^ (Z.pos (digits2_pos m) - 1) <= Z.pos m < 2 ^ Z.pos (digits2_pos m))%Z.
Proof.
  induction m as [p IH | p IH |]; cbn [digits2_pos].
  - rewrite Pos2Z.inj_succ, Z.pow_succ_r by lia.
    replace (Z.succ (Z.pos (digits2_pos p)) - 1)%Z
      with (Z.succ (Z.pos (digits2_pos p) - 1)) by lia.
    rewrite Z.pow_succ_r by lia. lia.
  - rewrite Pos2Z.inj_succ, Z.pow_succ_r by lia.
    replace (Z.succ (Z.pos (digits2_pos p)) - 1)%Z
      with (Z.succ (Z.pos (digits2_pos p) - 1)) by lia.
    rewrite Z.pow_succ_r by lia. lia.
  - cbn. lia.
Qed.

Lemma iter_xO_pow2 (d m : positive) :
  Z.pos (Pos.iter xO m d) = (Z.pos m * 2 ^ Z.pos d)%Z.
Proof.
  change (Pos.iter xO m d) with (shift_pos d m).
  rewrite shift_pos_correct, Zpower_pos_nat, Zpower_nat_Z, positive_nat_Z. lia.
Qed.

Lemma shl_align_fst (mx : positive) (ex ez : Z) :
  (ez ≤ ex)%Z →
  Z.pos (fst (shl_align mx ex ez)) = (Z.pos mx * 2 ^ (ex - ez))%Z.
Proof.
  intros Hle. unfold shl_align.
  destruct (ez - ex)%Z as [| d | d] eqn:Hd; cbn [fst].
  - replace (ex - ez)%Z with 0%Z by lia. cbn. lia.
  - lia.
  - rewrite iter_xO_pow2. replace (ex - ez)%Z with (Z.pos d) by lia. reflexivity.
Qed.

Lemma bounded_canonical (m : positive) (e : Z) :
  bounded prec emax m e = true →
  (SpecFloat.emin prec emax ≤ e)%Z ∧
  (Z.pos (digits2_pos m) ≤ prec)%Z ∧
  (Z.pos (digits2_pos m) = prec ∨ e = SpecFloat.emin prec emax)%Z.
Proof.
  unfold bounded, canonical_mantissa, fexp.
  intros [Hc _]%andb_prop. apply Z.eqb_eq in Hc. lia.
Qed.


Lemma binary_round_aux_sign (sx : bool) (mx ex : Z) (lx : location) :
  match binary_round_aux prec emax sx mx ex lx with
  | S754_zero s | S754_infinity s | S754_finite s _ _ => s = sx
  | S754_nan => True
  end.
Proof.
  unfold binary_round_aux.
  destruct (shr_fexp prec emax mx ex lx) as [mrs' e'].
  destruct (shr_fexp prec emax _ e' loc_Exact) as [mrs'' e''].
  destruct (shr_m mrs''); [reflexivity | | exact I].
  destruct (Z.leb e'' (emax - prec)); reflexivity.
Qed.

Lemma binary_normalize_not_below_zero (m e : Z) :
  (0 <= m)%Z →
  SFltb (binary_normalize prec emax m e false) (S754_zero false) = false.
Proof.
  intros Hm. destruct m as [| p | p]; [reflexivity | | lia].
  cbn [binary_normalize]. unfold binary_round.
  destruct (shl_align p e _) as [mz ez].
  pose proof (binary_round_aux_sign false (Z.pos mz) ez loc_Exact) as Hs.
  destruct (binary_round_aux prec emax false (Z.pos mz) ez loc_Exact);
    try subst; reflexivity.
Qed.

(** [x + y] is not below zero when neither [x] nor [y] is. *)
Lemma SFadd_not_below_zero (x y : spec_float) :
  SFltb x (S754_zero false) = false →
  SFltb y (S754_zero false) = false →
  SFltb (SFadd prec emax x y) (S754_zero false) = false.
Proof.
  destruct x as [sx | sx | | sx mx ex], y as [sy | sy | | sy my ey];
    try destruct sx; try destruct sy; try discriminate; try reflexivity.
  intros _ _. cbn [SFadd cond_Zopp].
  apply binary_normalize_not_below_zero. lia.
Qed.

(** Two canonical positive floats compare as their aligned mantissas. *)
Lemma aligned_mantissas_le (mx my : positive) (ex ey : Z) :
  bounded prec emax mx ex = true →
  bounded prec emax my ey = true →
  SFltb (S754_finite false mx ex) (S754_finite false my ey) = false →
  (Z.pos (fst (shl_align my ey (Z.min ex ey)))
   <= Z.pos (fst (shl_align mx ex (Z.min ex ey))))%Z.
Proof.
  intros Hx%bounded_canonical Hy%bounded_canonical Hlt.
  unfold SFltb, SFcompare in Hlt.
  rewrite !shl_align_fst by lia.
  change (Pos.compare_cont Eq mx my) with (mx ?= my)%positive in Hlt.
  destruct (Z.compare_spec ex ey) as [Heq | Hlt' | Hgt]; [| discriminate |].
  - subst ey. rewrite Z.min_id, Z.sub_diag, !Z.mul_1_r.
    destruct (Pos.compare_spec mx my); try discriminate; lia.
  - rewrite Z.min_r, Z.sub_diag, Z.mul_1_r by lia.
    destruct Hx as (_ & _ & [Hdx | Hex]), Hy as (Hey & Hdy & _); [| lia].
    pose proof (digits2_pos_bounds mx) as [Hmx _].
    pose proof (digits2_pos_bounds my) as [_ Hmy].
    assert (Hpow : (2 ^ Z.pos (digits2_pos my) <= 2 ^ Z.pos (digits2_pos mx))%Z)
      by (apply Z.pow_le_mono_r; lia).
    assert (Hshift : (2 * 2 ^ (Z.pos (digits2_pos mx) - 1) <= Z.pos mx * 2 ^ (ex - ey))%Z).
    { rewrite (Z.mul_comm 2). apply Z.mul_le_mono_nonneg; try lia.
      change 2%Z with (2 ^ 1)%Z at 1. apply Z.pow_le_mono_r; lia. }
    replace (2 * 2 ^ (Z.pos (digits2_pos mx) - 1))%Z
      with (2 ^ Z.pos (digits2_pos mx))%Z in Hshift.
    + lia.
    + rewrite <- Z.pow_succ_r by lia. f_equal. lia.
Qed.

(** [x - y] is not below zero when [x] is not and [y > x] is false. *)
Lemma SFsub_not_below_zero (x y : spec_float) :
  SpecFloat.valid_binary prec emax x = true →
  SpecFloat.valid_binary prec emax y = true →
  SFltb x (S754_zero false) = false →
  SFltb x y = false →
  SFltb (SFsub prec emax x y) (S754_zero false) = false.
Proof.
  destruct x as [sx | sx | | sx mx ex], y as [sy | sy | | sy my ey];
    try destruct sx; try destruct sy; try discriminate; try reflexivity.
  - intros _ _ _ _. cbn [SFsub cond_Zopp].
    apply binary_normalize_not_below_zero. lia.
  - intros Hx Hy _ Hlt. cbn [SFsub cond_Zopp].
    apply binary_normalize_not_below_zero.
    pose proof (aligned_mantissas_le mx my ex ey Hx Hy Hlt). lia.
Qed.

(** A float below zero is not above one that is at least zero. *)
Lemma SFltb_negative_nonnegative (a b : spec_float) :
  SFltb a (S754_zero false) = true →
  SFleb (S754_zero false) b = true →
  SFltb b a = false.
Proof.
  destruct a as [sa | sa | | sa ma ea], b as [sb | sb | | sb mb eb];
    try destruct sa; try destruct sb; try discriminate; reflexivity.
Qed.

(** Subtracting a float below zero adds its absolute value. *)
Lemma SFsub_negative_is_add_abs (x y : spec_float) :
  SFltb y (S754_zero false) = true →
  SFsub prec emax x y = SFadd prec emax x (SFabs y).
Proof.
  destruct x as [sx | sx | | sx mx ex], y as [sy | sy | | sy my ey];
    try destruct sx; try destruct sy; try discriminate; reflexivity.
Qed.


Lemma iter_pos_Pos_iter {A : Type} (f : A → A) (n : positive) :
  ∀ x, SpecFloat.iter_pos f n x = Pos.iter f x n.
Proof.
  induction n as [n IH | n IH |]; intros x; cbn [SpecFloat.iter_pos Pos.iter].
  - rewrite !IH, <- !Pos.iter_swap. reflexivity.
  - rewrite !IH. reflexivity.
  - reflexivity.
Qed.

(** Shifting right what was shifted left loses nothing. *)
Lemma shr_1_iter_xO (k : positive) :
  ∀ m, SpecFloat.iter_pos shr_1 k {| shr_m := Z.pos (Pos.iter xO m k); shr_r := false; shr_s := false |}
       = {| shr_m := Z.pos m; shr_r := false; shr_s := false |}.
Proof.
  intros m. rewrite iter_pos_Pos_iter. revert m.
  induction k as [| k IH] using Pos.peano_ind; intros m.
  - reflexivity.
  - rewrite !Pos.iter_succ, <- Pos.iter_swap. cbn [shr_1 orb]. apply IH.
Qed.

Lemma digits2_pos_shift (p m : positive) (a b : Z) :
  (0 <= a)%Z → (0 <= b)%Z →
  (Z.pos p * 2 ^ a = Z.pos m * 2 ^ b)%Z →
  (Z.pos (digits2_pos p) + a = Z.pos (digits2_pos m) + b)%Z.
Proof.
  intros Ha Hb Heq.
  pose proof (digits2_pos_bounds p) as [Hp1 Hp2].
  pose proof (digits2_pos_bounds m) as [Hm1 Hm2].
  assert (Hlt : ∀ (q r : positive) (c d : Z),
    (0 <= c)%Z → (0 <= d)%Z →
    (2 ^ (Z.pos (digits2_pos q) - 1) <= Z.pos q)%Z →
    (Z.pos r < 2 ^ Z.pos (digits2_pos r))%Z →
    (Z.pos q * 2 ^ c = Z.pos r * 2 ^ d)%Z →
    (Z.pos (digits2_pos q) + c <= Z.pos (digits2_pos r) + d)%Z).
  { intros q r c d Hc Hd Hq Hr Hqr.
    destruct (Z_le_gt_dec (Z.pos (digits2_pos q) + c) (Z.pos (digits2_pos r) + d))
      as [Hle | Hgt]; [exact Hle | exfalso].
    assert (H1 : (Z.pos r * 2 ^ d < 2 ^ (Z.pos (digits2_pos r) + d))%Z).
    { rewrite Z.pow_add_r by lia. apply Z.mul_lt_mono_pos_r; [| exact Hr].
      apply Z.pow_pos_nonneg; lia. }
    assert (H2 : (2 ^ (Z.pos (digits2_pos q) - 1 + c) <= Z.pos q * 2 ^ c)%Z).
    { rewrite Z.pow_add_r by lia. apply Z.mul_le_mono_nonneg_r; [| exact Hq].
      apply Z.pow_nonneg; lia. }
    assert (H3 : (2 ^ (Z.pos (digits2_pos r) + d)
                  <= 2 ^ (Z.pos (digits2_pos q) - 1 + c))%Z)
      by (apply Z.pow_le_mono_r; lia).
    lia. }
  apply Z.le_antisymm; [apply Hlt | apply Hlt]; auto.
Qed.

(** Rounding a canonical mantissa changes nothing. *)
Lemma binary_round_aux_canonical (s : bool) (m : positive) (e : Z) :
  bounded prec emax m e = true →
  binary_round_aux prec emax s (Z.pos m) e loc_Exact = S754_finite s m e.
Proof.
  intros Hb. unfold bounded in Hb. apply andb_prop in Hb as [Hc He].
  unfold canonical_mantissa in Hc. apply Z.eqb_eq in Hc.
  unfold binary_round_aux, shr_fexp. cbn [Zdigits2 shr_record_of_loc].
  rewrite Hc, Z.sub_diag. cbn [shr shr_m loc_of_shr_record round_nearest_even Zdigits2
                               shr_record_of_loc].
  rewrite Hc, Z.sub_diag. cbn [shr shr_m]. rewrite He. reflexivity.
Qed.

(** Normalising any integer mantissa that stands for the value of a
    canonical float gives that float. *)
Lemma binary_normalize_exact (M e' : Z) (s : bool) (m : positive) (e : Z) :
  bounded prec emax m e = true →
  (SpecFloat.emin prec emax <= e')%Z →
  (M * 2 ^ (e' - SpecFloat.emin prec emax)
   = cond_Zopp s (Z.pos m * 2 ^ (e - SpecFloat.emin prec emax)))%Z →
  binary_normalize prec emax M e' false = S754_finite s m e.
Proof.
  intros Hb He' Heq.
  pose proof (bounded_canonical m e Hb) as (He & _ & _).
  set (emin := SpecFloat.emin prec emax) in *.
  assert (Hpa : (0 < 2 ^ (e' - emin))%Z) by (apply Z.pow_pos_nonneg; lia).
  assert (Hpb : (0 < 2 ^ (e - emin))%Z) by (apply Z.pow_pos_nonneg; lia).
  assert (Hgen : ∀ p : positive,
    (Z.pos p * 2 ^ (e' - emin) = Z.pos m * 2 ^ (e - emin))%Z →
    binary_round prec emax s p e' = S754_finite s m e).
  { intros p Hp.
    assert (Hd : (Z.pos (digits2_pos p) + e' = Z.pos (digits2_pos m) + e)%Z).
    { pose proof (digits2_pos_shift p m (e' - emin) (e - emin)). lia. }
    assert (Hc : fexp prec emax (Z.pos (digits2_pos m) + e) = e).
    { unfold bounded in Hb. apply andb_prop in Hb as [Hc _].
      by apply Z.eqb_eq in Hc. }
    unfold binary_round. rewrite Hd, Hc.
    destruct (Z.lt_trichotomy e e') as [Hlt | [Hee | Hgt]].
    - (* shift left to the canonical exponent *)
      assert (Hm : Z.pos (fst (shl_align p e' e)) = Z.pos m).
      { rewrite shl_align_fst by lia.
        replace (e' - emin)%Z with ((e' - e) + (e - emin))%Z in Hp by lia.
        rewrite Z.pow_add_r, Z.mul_assoc in Hp by lia.
        apply Z.mul_reg_r in Hp; lia. }
      unfold shl_align in *. destruct (e - e')%Z as [| d | d] eqn:Hd'; try lia.
      cbn [fst] in Hm. injection Hm as ->.
      by apply binary_round_aux_canonical.
    - subst e'. assert (p = m) as -> by nia.
      unfold shl_align. rewrite Z.sub_diag.
      by apply binary_round_aux_canonical.
    - (* the canonical exponent is above: the low bits are zeros *)
      unfold shl_align. destruct (e - e')%Z as [| k | k] eqn:Hk; try lia.
      assert (Hpm : p = Pos.iter xO m k).
      { apply Pos2Z.inj. rewrite iter_xO_pow2.
        replace (e - emin)%Z with (Z.pos k + (e' - emin))%Z in Hp by lia.
        rewrite Z.pow_add_r, Z.mul_assoc in Hp by lia.
        apply Z.mul_reg_r in Hp; lia. }
      subst p.
      unfold binary_round_aux, shr_fexp at 1. cbn [Zdigits2 shr_record_of_loc].
      rewrite Hd, Hc. replace (e - e')%Z with (Z.pos k) by lia.
      cbn [shr]. rewrite shr_1_iter_xO.
      replace (e' + Z.pos k)%Z with e by lia.
      cbn [shr_m loc_of_shr_record round_nearest_even].
      unfold shr_fexp. cbn [Zdigits2 shr_record_of_loc].
      rewrite Hc, Z.sub_diag. cbn [shr shr_m].
      unfold bounded in Hb. apply andb_prop in Hb as [_ ->]. reflexivity. }
  destruct M as [| p | p], s; cbn [cond_Zopp binary_normalize] in *; try nia.
  - apply Hgen. lia.
  - apply Hgen. nia.
Qed.


Lemma cond_Zopp_mul (s : bool) (a b : Z) :
  (cond_Zopp s a * b = cond_Zopp s (a * b))%Z.
Proof. destruct s; cbn [cond_Zopp]; lia. Qed.

Lemma aligned_units (s : bool) (m : positive) (e e' : Z) :
  (SpecFloat.emin prec emax <= e')%Z → (e' <= e)%Z →
  (cond_Zopp s (Z.pos (fst (shl_align m e e'))) * 2 ^ (e' - SpecFloat.emin prec emax)
   = cond_Zopp s (Z.pos m * 2 ^ (e - SpecFloat.emin prec emax)))%Z.
Proof.
  intros Hmin Hle. rewrite cond_Zopp_mul, shl_align_fst by lia. f_equal.
  rewrite <- Z.mul_assoc, <- Z.pow_add_r by lia. do 2 f_equal. lia.
Qed.

Lemma SFunits_finite_nonzero (s : bool) (m : positive) (e : Z) :
  bounded prec emax m e = true →
  cond_Zopp s (Z.pos m * 2 ^ (e - SpecFloat.emin prec emax))%Z ≠ 0%Z.
Proof.
  intros (He & _ & _)%bounded_canonical.
  assert (0 < 2 ^ (e - SpecFloat.emin prec emax))%Z by (apply Z.pow_pos_nonneg; lia).
  destruct s; cbn [cond_Zopp]; nia.
Qed.

(** A canonical float is the only one of its value. *)
Lemma SFunits_finite_inj (s1 s2 : bool) (m1 m2 : positive) (e1 e2 : Z) :
  bounded prec emax m1 e1 = true →
  bounded prec emax m2 e2 = true →
  SFunits prec emax (S754_finite s1 m1 e1) = SFunits prec emax (S754_finite s2 m2 e2) →
  S754_finite s1 m1 e1 = S754_finite s2 m2 e2.
Proof.
  intros H1 H2 [= Hu].
  pose proof (bounded_canonical m1 e1 H1) as (He1 & _ & _).
  rewrite <- (binary_normalize_exact (cond_Zopp s1 (Z.pos m1)) e1 s1 m1 e1 H1 He1)
    by apply cond_Zopp_mul.
  apply binary_normalize_exact; [exact H2 | exact He1 |].
  rewrite cond_Zopp_mul. exact Hu.
Qed.

Lemma SFeqb_finite_refl (s : bool) (m : positive) (e : Z) :
  SFeqb (S754_finite s m e) (S754_finite s m e) = true.
Proof.
  unfold SFeqb, SFcompare. rewrite Z.compare_refl.
  change (Pos.compare_cont Eq m m) with (m ?= m)%positive.
  rewrite Pos.compare_refl. by destruct s.
Qed.

(** When [z] stands for the exact sum of [x] and [y], [z - y] is [x]. *)
Lemma SFsub_exact (z y x : spec_float) (vz vy : Z) :
  SpecFloat.valid_binary prec emax z = true →
  SpecFloat.valid_binary prec emax y = true →
  SpecFloat.valid_binary prec emax x = true →
  SFunits prec emax z = Some vz →
  SFunits prec emax y = Some vy →
  SFunits prec emax x = Some (vz - vy)%Z →
  SFeqb (SFsub prec emax z y) x = true.
Proof.
  intros Hz Hy Hx Huz Huy Hux.
  destruct z as [sz | sz | | sz mz ez]; try discriminate;
    destruct y as [sy | sy | | sy my ey]; try discriminate;
    cbn [SpecFloat.valid_binary] in Hz, Hy;
    injection Huz as <-; injection Huy as <-.
  - (* 0 - 0 *)
    destruct x as [sx | sx | | sx mx ex]; try discriminate.
    + by destruct sz, sy.
    + injection Hux as Hux. by apply SFunits_finite_nonzero in Hux.
  - (* 0 - y *)
    cbn [SFsub].
    destruct x as [sx | sx | | sx mx ex]; try discriminate.
    + injection Hux as Hux. exfalso.
      apply (SFunits_finite_nonzero sy my ey Hy). lia.
    + rewrite (SFunits_finite_inj (negb sy) sx my mx ey ex Hy Hx).
      * apply SFeqb_finite_refl.
      * rewrite Hux. cbn [SFunits]. f_equal. destruct sy; cbn [negb cond_Zopp]; lia.
  - (* z - 0 *)
    cbn [SFsub].
    destruct x as [sx | sx | | sx mx ex]; try discriminate.
    + injection Hux as Hux. exfalso.
      apply (SFunits_finite_nonzero sz mz ez Hz). lia.
    + rewrite (SFunits_finite_inj sz sx mz mx ez ex Hz Hx).
      * apply SFeqb_finite_refl.
      * rewrite Hux. cbn [SFunits]. f_equal. lia.
  - (* z - y, both finite *)
    cbn [SFsub].
    pose proof (bounded_canonical mz ez Hz) as (Hez & _ & _).
    pose proof (bounded_canonical my ey Hy) as (Hey & _ & _).
    set (e' := Z.min ez ey).
    set (D := (cond_Zopp sz (Z.pos (fst (shl_align mz ez e')))
               - cond_Zopp sy (Z.pos (fst (shl_align my ey e'))))%Z).
    assert (HD : (D * 2 ^ (e' - SpecFloat.emin prec emax)
                  = cond_Zopp sz (Z.pos mz * 2 ^ (ez - SpecFloat.emin prec emax))
                    - cond_Zopp sy (Z.pos my * 2 ^ (ey - SpecFloat.emin prec emax)))%Z).
    { unfold D. rewrite Z.mul_sub_distr_r, !aligned_units by lia. reflexivity. }
    destruct x as [sx | sx | | sx mx ex]; try discriminate.
    + injection Hux as Hux. rewrite <- HD in Hux.
      assert (0 < 2 ^ (e' - SpecFloat.emin prec emax))%Z
        by (apply Z.pow_pos_nonneg; lia).
      assert (D = 0%Z) as -> by nia. reflexivity.
    + injection Hux as Hux. rewrite <- HD in Hux.
      rewrite (binary_normalize_exact D e' sx mx ex Hx) by (try lia; by rewrite Hux).
      apply SFeqb_finite_refl.
Qed.

Lemma shr_1_nonneg (mrs : shr_record) :
  (0 <= shr_m mrs)%Z → (0 <= shr_m (shr_1 mrs))%Z.
Proof.
  destruct mrs as [m r s]. cbn [shr_m]. intros Hm.
  destruct m as [| p | p]; [cbn; lia | | lia].
  destruct p; cbn; lia.
Qed.

Lemma shr_nonneg (mrs : shr_record) (e n : Z) :
  (0 <= shr_m mrs)%Z → (0 <= shr_m (fst (shr mrs e n)))%Z.
Proof.
  intros Hm. unfold shr. destruct n as [| p | p]; cbn [fst]; try exact Hm.
  rewrite iter_pos_Pos_iter.
  apply (Pos.iter_invariant p _ shr_1 (λ x, (0 <= shr_m x)%Z)); [| exact Hm].
  intros x. apply shr_1_nonneg.
Qed.

Lemma shr_fexp_nonneg (m e : Z) (l : location) :
  (0 <= m)%Z → (0 <= shr_m (fst (shr_fexp prec emax m e l)))%Z.
Proof.
  intros Hm. unfold shr_fexp. apply shr_nonneg.
  destruct l as [| []]; cbn; exact Hm.
Qed.

Lemma round_nearest_even_nonneg (m : Z) (l : location) :
  (0 <= m)%Z → (0 <= round_nearest_even m l)%Z.
Proof.
  intros Hm. unfold round_nearest_even.
  destruct l as [| []]; try destruct (Z.even m); lia.
Qed.

(** Rounding what is not below zero gives a zero, a finite float or an
    infinity of sign plus, never a NaN. *)
Lemma binary_round_aux_nonneg (mx ex : Z) (lx : location) :
  (0 <= mx)%Z →
  SFleb (S754_zero false) (binary_round_aux prec emax false mx ex lx) = true.
Proof.
  intros Hm. unfold binary_round_aux.
  pose proof (shr_fexp_nonneg mx ex lx Hm) as H1.
  destruct (shr_fexp prec emax mx ex lx) as [mrs' e']. cbn [fst] in H1.
  pose proof (shr_fexp_nonneg _ e' loc_Exact
                (round_nearest_even_nonneg (shr_m mrs') (loc_of_shr_record mrs') H1)) as H2.
  destruct (shr_fexp prec emax _ e' loc_Exact) as [mrs'' e'']. cbn [fst] in H2.
  destruct (shr_m mrs'') as [| p | p]; [reflexivity | | lia].
  destruct (Z.leb e'' (emax - prec)); reflexivity.
Qed.

Lemma binary_normalize_nonneg (m e : Z) :
  (0 <= m)%Z →
  SFleb (S754_zero false) (binary_normalize prec emax m e false) = true.
Proof.
  intros Hm. destruct m as [| p | p]; [reflexivity | | lia].
  cbn [binary_normalize]. unfold binary_round.
  destruct (shl_align p e _) as [mz ez].
  apply binary_round_aux_nonneg. lia.
Qed.

(** [x + y] is at least zero when [x] and [y] are. *)
Lemma SFadd_nonneg (x y : spec_float) :
  SFleb (S754_zero false) x = true →
  SFleb (S754_zero false) y = true →
  SFleb (S754_zero false) (SFadd prec emax x y) = true.
Proof.
  destruct x as [sx | sx | | sx mx ex], y as [sy | sy | | sy my ey];
    try destruct sx; try destruct sy; try discriminate; try reflexivity.
  intros _ _. cbn [SFadd cond_Zopp].
  apply binary_normalize_nonneg. lia.
Qed.

(** [x - y] is at least zero when [x] is, [y] is finite and [y > x] is
    false. *)
Lemma SFsub_nonneg (x y : spec_float) :
  SpecFloat.valid_binary prec emax x = true →
  SpecFloat.valid_binary prec emax y = true →
  SFleb (S754_zero false) x = true →
  (∀ s, y ≠ S754_infinity s) → y ≠ S754_nan →
  SFltb x y = false →
  SFleb (S754_zero false) (SFsub prec emax x y) = true.
Proof.
  intros Hx Hy Hpos Hinf Hnan Hlt.
  destruct y as [sy | sy | | sy my ey];
    [| by destruct (Hinf sy) | by destruct Hnan |].
  - destruct x as [sx | sx | | sx mx ex];
      try destruct sx; try destruct sy; try discriminate; reflexivity.
  - destruct x as [sx | sx | | sx mx ex];
      try destruct sx; try destruct sy; try discriminate; try reflexivity.
    + cbn [SFsub cond_Zopp]. apply binary_normalize_nonneg. lia.
    + cbn [SFsub cond_Zopp]. apply binary_normalize_nonneg.
      pose proof (aligned_mantissas_le mx my ex ey Hx Hy Hlt). lia.
Qed.

End SpecFloatFacts.

Section Binary64.

Lemma double_add_not_negative (x y : float) :
  (x <? 0)%float = false → (y <? 0)%float = false → (x + y <? 0)%float = false.
Proof.
  rewrite !ltb_spec, add_spec. apply SFadd_not_below_zero.
Qed.

Lemma double_sub_not_negative (x y : float) :
  (x <? 0)%float = false → (x <? y)%float = false → (x - y <? 0)%float = false.
Proof.
  rewrite !ltb_spec, sub_spec.
  apply SFsub_not_below_zero; apply Prim2SF_valid.
Qed.

Lemma double_negative_not_gt (a b : float) :
  (a <? 0)%float = true → (0 <=? b)%float = true → (b <? a)%float = false.
Proof.
  rewrite !ltb_spec, leb_spec. apply SFltb_negative_nonnegative.
Qed.

Lemma double_sub_negative (x y : float) :
  (y <? 0)%float = true → (x - y)%float = (x + abs y)%float.
Proof.
  intros Hy. apply Prim2SF_inj.
  rewrite sub_spec, add_spec, abs_spec.
  apply SFsub_negative_is_add_abs. rewrite ltb_spec in Hy. exact Hy.
Qed.

Lemma double_add_sub_exact (x y : float) :
  exact_sum x y = true → ((x + y) - y =? x)%float = true.
Proof.
  unfold exact_sum, units. intros Hexact.
  destruct (SFunits prec emax (Prim2SF x)) as [vx |] eqn:Hx; [| discriminate].
  destruct (SFunits prec emax (Prim2SF y)) as [vy |] eqn:Hy; [| discriminate].
  destruct (SFunits prec emax (Prim2SF (x + y))) as [vz |] eqn:Hz; [| discriminate].
  apply Z.eqb_eq in Hexact. subst vz.
  rewrite FloatAxioms.eqb_spec, sub_spec.
  apply (SFsub_exact prec emax _ _ _ (vx + vy) vy); try apply Prim2SF_valid.
  - exact Hz.
  - exact Hy.
  - replace (vx + vy - vy)%Z with vx by lia. exact Hx.
Qed.
Lemma is_nan_Prim2SF (x : double) :
  is_nan x = true ↔ Prim2SF x = S754_nan.
Proof.
  unfold is_nan. rewrite FloatAxioms.eqb_spec.
  destruct (Prim2SF x) as [s | s | | s m e].
  - destruct s; cbn; split; discriminate.
  - destruct s; cbn; split; discriminate.
  - cbn. split; reflexivity.
  - rewrite SFeqb_finite_refl. cbn. split; discriminate.
Qed.

Lemma is_finite_Prim2SF (x : double) :
  is_finite x = true →
  (∀ s, Prim2SF x ≠ S754_infinity s) ∧ Prim2SF x ≠ S754_nan.
Proof.
  unfold is_finite. intros Hfin. apply negb_true_iff, orb_false_iff in Hfin as [Hnan Hinf].
  split.
  - intros s Heq. unfold is_infinity in Hinf.
    rewrite FloatAxioms.eqb_spec, abs_spec, Heq in Hinf. discriminate.
  - intros Heq. apply is_nan_Prim2SF in Heq. congruence.
Qed.

Lemma double_add_nonneg (x y : float) :
  (0 <=? x)%float = true → (0 <=? y)%float = true → (0 <=? x + y)%float = true.
Proof.
  rewrite !leb_spec, add_spec. apply SFadd_nonneg.
Qed.

Lemma double_sub_nonneg (x y : float) :
  (0 <=? x)%float = true → is_finite y = true → (x <? y)%float = false →
  (0 <=? x - y)%float = true.
Proof.
  rewrite !leb_spec, ltb_spec, sub_spec. intros Hx [Hinf Hnan]%is_finite_Prim2SF Hlt.
  apply SFsub_nonneg; try apply Prim2SF_valid; assumption.
Qed.

Lemma double_nonneg_not_negative (x : float) :
  (0 <=? x)%float = true → (x <? 0)%float = false.
Proof.
  rewrite leb_spec, ltb_spec.
  destruct (Prim2SF x) as [s | s | | s m e]; try destruct s; try discriminate; reflexivity.
Qed.

End Binary64.

(** ** Account *)

(** C1: when [amount > balance], [withdraw] returns [false] and hands back the
    account as it was: same balance, same transaction history, nothing
    appended. *)
Theorem withdraw_insufficient_funds (a : Account.t) (amount : double) (now : string) :
  (amount >? Account.balance a)%float = true →
  ∃ a' out,
    Account.withdraw now amount a = (false, a', out) ∧
    Account.balance a' = Account.balance a ∧
    Account.transactions a' = Account.transactions a ∧
    a' = a.
Proof.
  intros Hgt. unfold Account.withdraw. rewrite Hgt. eauto 10.
Qed.

Lemma withdraw_insufficient_funds_witness :
  ∃ a' out,
    Account.withdraw "now" 2000%float (Account.new "ACC1001" 1000%float) = (false, a', out) ∧
    Account.balance a' = 1000%float ∧
    Account.transactions a' = [] ∧
    a' = Account.new "ACC1001" 1000%float.
Proof.
  apply (withdraw_insufficient_funds (Account.new "ACC1001" 1000%float) 2000%float "now").
  reflexivity.
Defined.

(** C3: [deposit] has no failure path and no precondition on [amount] (zero,
    negative, anything): the new balance is [balance + amount] and the history
    gains exactly one [DEPOSIT] transaction of that amount, at its end. *)
Theorem deposit_always_succeeds (a : Account.t) (amount : double) (now : string) :
  ∃ a' out,
    Account.deposit now amount a = (a', out) ∧
    Account.accountNumber a' = Account.accountNumber a ∧
    Account.balance a' = (Account.balance a + amount)%float ∧
    Account.transactions a' =
      Account.transactions a ++ [{| Transaction.type := DEPOSIT;
                                    Transaction.amount := amount;
                                    Transaction.timestamp := now |}] ∧
    length (Account.transactions a') = S (length (Account.transactions a)).
Proof.
  eexists _, _. split; [reflexivity |]. cbn.
  repeat split. rewrite length_app. cbn. lia.
Qed.

(** Zero and negative amounts go through like any other. *)
Example deposit_accepts_zero_and_negative :
  Account.balance (Account.deposit "t1" 0%float (Account.new "ACC1001" 1000%float)).1
    = 1000%float ∧
  Account.balance (Account.deposit "t1" (-250)%float (Account.new "ACC1001" 1000%float)).1
    = 750%float ∧
  length (Account.transactions
            (Account.deposit "t1" (-250)%float (Account.new "ACC1001" 1000%float)).1) = 1.
Proof. repeat split. Qed.

(** ** User *)

(** C6: [authenticate] is exact, case-sensitive string equality with the
    stored PIN. *)
Theorem authenticate_iff_equal (u : User.t) (s : string) :
  User.authenticate s u = true ↔ s = User.pin u.
Proof.
  unfold User.authenticate. rewrite String.eqb_eq. split; congruence.
Qed.

(** Any candidate that differs from the stored PIN is refused: a change of
    case and an added blank, on the PIN of [main]. *)
Example authenticate_refuses_variants :
  let alice := User.new "Alice" "Ab12" in
  User.authenticate "Ab12" alice = true ∧
  User.authenticate "ab12" alice = false ∧
  User.authenticate "Ab12 " alice = false ∧
  User.authenticate " Ab12" alice = false.
Proof. repeat split. Qed.

(** ** BankService *)

(** C5: for an identifier that the directory does not hold, every operation
    of the service contract that looks it up answers "not found" without
    undefined behaviour and without touching the heap or [cout]: [deposit]
    and [withdraw] return [false], [getBalance] returns the sentinel [-1],
    [getUserByAccount] and [getAccount] return [nullptr]. *)
Theorem unknown_account_not_found
    (b : BankService.t) (h : Heap) (accNum now : string) (amount : double) :
  BankService.users b !! accNum = None →
  BankService.accounts b !! accNum = None →
  deposit now accNum amount b h = Some (false, h, []) ∧
  withdraw now accNum amount b h = Some (false, h, []) ∧
  getBalance accNum b h = Some (-1)%float ∧
  getUserByAccount accNum b = None ∧
  getAccount accNum b = None.
Proof.
  intros Hu Ha. cbn.
  unfold BankService.deposit, BankService.withdraw, BankService.getBalance,
    BankService.getUserByAccount, BankService.getAccount.
  rewrite Hu, Ha. repeat split.
Qed.

Lemma unknown_account_not_found_witness :
  deposit "now" "ACC9999" 50%float Main.bank Main.heap = Some (false, Main.heap, []) ∧
  withdraw "now" "ACC9999" 50%float Main.bank Main.heap = Some (false, Main.heap, []) ∧
  getBalance "ACC9999" Main.bank Main.heap = Some (-1)%float ∧
  getUserByAccount "ACC9999" Main.bank = None ∧
  getAccount "ACC9999" Main.bank = None.
Proof.
  apply (unknown_account_not_found Main.bank Main.heap "ACC9999" "now" 50%float);
    vm_compute; reflexivity.
Defined.

(** [addUser] writes the same key to both maps at every turn of its loop. *)
Lemma addUser_step_dom (h : Heap) (user acc : ptr) (b b' : BankService.t) :
  BankService.addUser_step h user acc b = Some b' →
  dom (BankService.users b) = dom (BankService.accounts b) →
  dom (BankService.users b') = dom (BankService.accounts b').
Proof.
  unfold BankService.addUser_step. intros Hstep Hdom.
  destruct (accountAt h !! acc) as [a|]; [| discriminate].
  injection Hstep as <-. cbn. rewrite !dom_insert_L. congruence.
Qed.

Lemma addUser_loop_dom (h : Heap) (user : ptr) (accs : list ptr) :
  ∀ b b' : BankService.t,
    BankService.addUser_loop h user accs b = Some b' →
    dom (BankService.users b) = dom (BankService.accounts b) →
    dom (BankService.users b') = dom (BankService.accounts b').
Proof.
  induction accs as [| acc rest IH]; intros b b' Hloop Hdom; cbn in Hloop.
  - congruence.
  - destruct (BankService.addUser_step h user acc b) as [b1|] eqn:Hstep; [| discriminate].
    eapply IH; [exact Hloop |]. eapply addUser_step_dom; eauto.
Qed.

Lemma addUser_dom (h : Heap) (user : ptr) (b b' : BankService.t) :
  BankService.addUser h user b = Some b' →
  dom (BankService.users b) = dom (BankService.accounts b) →
  dom (BankService.users b') = dom (BankService.accounts b').
Proof.
  unfold BankService.addUser. destruct (userAt h !! user) as [u|]; [| discriminate].
  apply addUser_loop_dom.
Qed.

(** [addUser] is defined as soon as the user and the accounts it lists are
    objects of the heap. *)
Lemma addUser_loop_defined (h : Heap) (user : ptr) (accs : list ptr) :
  Forall (λ acc, is_Some (accountAt h !! acc)) accs →
  ∀ b, is_Some (BankService.addUser_loop h user accs b).
Proof.
  induction 1 as [| acc rest [a Ha] _ IH]; intros b; cbn.
  - eauto.
  - unfold BankService.addUser_step. rewrite Ha. apply IH.
Qed.

Lemma addUser_defined (h : Heap) (user : ptr) (u : User.t) (b : BankService.t) :
  userAt h !! user = Some u →
  Forall (λ acc, is_Some (accountAt h !! acc)) (User.getAccounts u) →
  is_Some (BankService.addUser h user b).
Proof.
  intros Hu Haccs. unfold BankService.addUser. rewrite Hu.
  by apply addUser_loop_defined.
Qed.

(** C8: in a directory built from the empty one by any sequence of [addUser]
    calls, the user map and the account map have the same keys. *)
Theorem directory_maps_same_keys (calls : list (Heap * ptr)) (b : BankService.t) :
  addUsers calls BankService.new = Some b →
  dom (BankService.users b) = dom (BankService.accounts b) ∧
  (∀ accNum, is_Some (BankService.users b !! accNum)
             ↔ is_Some (BankService.accounts b !! accNum)).
Proof.
  assert (Hgen : ∀ b0 : BankService.t,
    addUsers calls b0 = Some b →
    dom (BankService.users b0) = dom (BankService.accounts b0) →
    dom (BankService.users b) = dom (BankService.accounts b)).
  { induction calls as [| [h user] rest IH]; intros b0 Hrun Hdom; cbn in Hrun.
    - congruence.
    - destruct (BankService.addUser h user b0) as [b1|] eqn:Hadd; [| discriminate].
      eapply IH; [exact Hrun |]. eapply addUser_dom; eauto. }
  intros Hrun.
  assert (Hdom : dom (BankService.users b) = dom (BankService.accounts b)).
  { apply (Hgen BankService.new Hrun). cbn. by rewrite !dom_empty_L. }
  split; [exact Hdom |].
  intros accNum. rewrite <- !elem_of_dom, Hdom. reflexivity.
Qed.

Lemma directory_maps_same_keys_witness :
  dom (BankService.users Main.bank) = dom (BankService.accounts Main.bank) ∧
  (∀ accNum, is_Some (BankService.users Main.bank !! accNum)
             ↔ is_Some (BankService.accounts Main.bank !! accNum)).
Proof.
  apply (directory_maps_same_keys [(Main.heap, Main.user1); (Main.heap, Main.user2)] Main.bank).
  vm_compute. reflexivity.
Defined.

(** ** ATM *)

(** C9: from [LoggedOut], [login] succeeds exactly when the identifier is
    registered and the PIN authenticates against the user registered under
    it; a success sets [currentUser] and [currentAccount] to the user and the
    account the directory holds for the identifier, a failure leaves the
    session as it was, still [LoggedOut], with the one message for both
    causes. *)
Theorem login_iff_registered_and_authenticated
    (b : BankService.t) (h : Heap) (accNum pin : string) (atm : ATM.t) :
  LoggedOut atm →
  users_live b h →
  ∃ ok atm' out,
    ATM.login b h accNum pin atm = Some (ok, atm', out) ∧
    (ok = true ↔
       ∃ user u, BankService.users b !! accNum = Some user ∧
                 userAt h !! user = Some u ∧
                 User.authenticate pin u = true) ∧
    (ok = true →
       ATM.currentUser atm' = BankService.users b !! accNum ∧
       ATM.currentAccount atm' = BankService.accounts b !! accNum ∧
       ¬ LoggedOut atm') ∧
    (ok = false →
       atm' = atm ∧ LoggedOut atm' ∧
       out = [Str ("Invalid account number or PIN." +:+ nl)]).
Proof.
  intros Hout Hlive. unfold ATM.login. cbn.
  unfold BankService.getUserByAccount, BankService.getAccount.
  destruct (BankService.users b !! accNum) as [user|] eqn:Huser.
  - destruct (Hlive accNum user Huser) as [u Hu]. rewrite Hu.
    destruct (User.authenticate pin u) eqn:Hauth.
    + eexists true, _, _. split; [reflexivity |].
      split; [| split; [| discriminate]].
      * split; [| reflexivity]. intros _. exists user, u. auto.
      * intros _. cbn. repeat split.
        -- by destruct (BankService.accounts b !! accNum).
        -- unfold LoggedOut. cbn. discriminate.
    + eexists false, _, _. split; [reflexivity |].
      split; [| split; [discriminate | auto]].
      split; [discriminate |].
      intros (user' & u' & Hu1 & Hu2 & Hu3). congruence.
  - eexists false, _, _. split; [reflexivity |].
    split; [| split; [discriminate | auto]].
    split; [discriminate |].
    intros (user' & u' & Hu1 & _). discriminate.
Qed.

Lemma login_iff_registered_and_authenticated_witness :
  ∃ ok atm' out,
    ATM.login Main.bank Main.heap "ACC1001" "1234" ATM.new = Some (ok, atm', out) ∧
    (ok = true ↔
       ∃ user u, BankService.users Main.bank !! "ACC1001" = Some user ∧
                 userAt Main.heap !! user = Some u ∧
                 User.authenticate "1234" u = true) ∧
    (ok = true →
       ATM.currentUser atm' = BankService.users Main.bank !! "ACC1001" ∧
       ATM.currentAccount atm' = BankService.accounts Main.bank !! "ACC1001" ∧
       ¬ LoggedOut atm') ∧
    (ok = false →
       atm' = ATM.new ∧ LoggedOut atm' ∧
       out = [Str ("Invalid account number or PIN." +:+ nl)]).
Proof.
  apply (login_iff_registered_and_authenticated Main.bank Main.heap "ACC1001" "1234" ATM.new).
  - reflexivity.
  - change (map_Forall (λ _ user, is_Some (userAt Main.heap !! user))
                       (BankService.users Main.bank)).
    apply (bool_decide_unpack _). vm_compute. exact I.
Defined.

(** The three logins of the specification's scenarios, on the bootstrap of
    [main]. *)
Example login_scenarios :
  ATM.login Main.bank Main.heap "ACC1001" "1234" ATM.new
    = Some (true, {| ATM.currentUser := Some Main.user1; ATM.currentAccount := Some Main.acc1 |},
            [Str ("Login successful!" +:+ nl)]) ∧
  ATM.login Main.bank Main.heap "ACC1001" "wrong" ATM.new
    = Some (false, ATM.new, [Str ("Invalid account number or PIN." +:+ nl)]) ∧
  ATM.login Main.bank Main.heap "ACC9999" "anything" ATM.new
    = Some (false, ATM.new, [Str ("Invalid account number or PIN." +:+ nl)]).
Proof. repeat split; vm_compute; reflexivity. Qed.

(** ** Account: sequences of deposits and withdrawals *)

(** The balance that a call leaves, by cases on the call. *)
Lemma run_call_balance (c : call) (a : Account.t) :
  Account.balance (run_call c a) =
    match c with
    | call_deposit _ amount => (Account.balance a + amount)%float
    | call_withdraw _ amount =>
        if (amount >? Account.balance a)%float then Account.balance a
        else (Account.balance a - amount)%float
    end.
Proof.
  destruct c as [now amount | now amount]; [reflexivity |].
  unfold run_call, Account.withdraw.
  destruct (amount >? Account.balance a)%float; reflexivity.
Qed.

Lemma run_call_not_negative (c : call) (a : Account.t) :
  deposit_not_negative c →
  negative (Account.balance a) = false →
  negative (Account.balance (run_call c a)) = false.
Proof.
  intros Hc Ha. rewrite run_call_balance. unfold negative in *.
  destruct c as [now amount | now amount]; cbn in Hc.
  - by apply double_add_not_negative.
  - destruct (amount >? Account.balance a)%float eqn:Hgt; [exact Ha |].
    by apply double_sub_not_negative.
Qed.

(** A balance that is not below zero stays so when no deposit carries an
    amount below zero, whatever double the withdrawals carry; a NaN counts as
    not below zero here. *)
Lemma balance_never_below_zero (cs : list call) (a : Account.t) :
  negative (Account.balance a) = false →
  Forall deposit_not_negative cs →
  negative (Account.balance (run_calls cs a)) = false.
Proof.
  intros Ha Hcs. revert a Ha. unfold run_calls.
  induction Hcs as [| c cs Hc _ IH]; intros a Ha; cbn.
  - exact Ha.
  - apply IH. by apply run_call_not_negative.
Qed.

Lemma run_call_nonneg (c : call) (a : Account.t) :
  amount_in_range c →
  (0 <=? Account.balance a)%float = true →
  (0 <=? Account.balance (run_call c a))%float = true.
Proof.
  intros Hc Ha. rewrite run_call_balance.
  destruct c as [now amount | now amount]; cbn in Hc.
  - by apply double_add_nonneg.
  - destruct (amount >? Account.balance a)%float eqn:Hgt; [exact Ha |].
    by apply double_sub_nonneg.
Qed.

(** C2, as the code has it: the balance of an account that starts
    non-negative, [0 <= balance], is non-negative after any sequence of
    deposits and withdrawals whose deposits carry amounts [0 <= amount]; the
    withdrawals may carry any real number, that is any finite amount. *)
Theorem balance_never_negative (cs : list call) (a : Account.t) :
  (0 <=? Account.balance a)%float = true →
  Forall amount_in_range cs →
  (0 <=? Account.balance (run_calls cs a))%float = true ∧
  negative (Account.balance (run_calls cs a)) = false.
Proof.
  intros Ha Hcs.
  assert (Hge : (0 <=? Account.balance (run_calls cs a))%float = true).
  { revert a Ha. unfold run_calls.
    induction Hcs as [| c cs Hc _ IH]; intros a Ha; cbn.
    - exact Ha.
    - apply IH. by apply run_call_nonneg. }
  split; [exact Hge |]. by apply double_nonneg_not_negative.
Qed.

Lemma balance_never_negative_witness :
  (0 <=? Account.balance
           (run_calls [call_deposit "t1" 500%float;
                       call_withdraw "t2" 2000%float;
                       call_withdraw "t3" (-250)%float;
                       call_withdraw "t4" 1750%float]
                      (Account.new "ACC1001" 1000%float)))%float = true ∧
  negative (Account.balance
              (run_calls [call_deposit "t1" 500%float;
                          call_withdraw "t2" 2000%float;
                          call_withdraw "t3" (-250)%float;
                          call_withdraw "t4" 1750%float]
                         (Account.new "ACC1001" 1000%float))) = false.
Proof.
  apply (balance_never_negative
           [call_deposit "t1" 500%float;
            call_withdraw "t2" 2000%float;
            call_withdraw "t3" (-250)%float;
            call_withdraw "t4" 1750%float]
           (Account.new "ACC1001" 1000%float)).
  - reflexivity.
  - repeat constructor.
Defined.

(** The amounts must be real numbers: a withdrawal of NaN, or of infinity
    from a balance that deposits have taken to infinity, is not refused and
    leaves a NaN, which is not [0 <= balance]. *)
Example non_finite_withdrawal_leaves_nan :
  (0 <=? Account.balance
           (run_calls [call_withdraw "t1" nan] (Account.new "ACC1001" 1000%float)))%float
    = false ∧
  (0 <=? Account.balance
           (run_calls [call_deposit "t1" infinity; call_withdraw "t2" infinity]
                      (Account.new "ACC1001" 1000%float)))%float
    = false.
Proof. split; reflexivity. Qed.

(** C2 as stated fails: one deposit of a negative amount takes the balance of
    [main]'s first account from 1000 to -1000. *)
Lemma negative_deposit_makes_balance_negative :
  (0 <=? Account.balance (Account.new "ACC1001" 1000%float))%float = true ∧
  negative (Account.balance (Account.new "ACC1001" 1000%float)) = false ∧
  Account.balance
    (run_calls [call_deposit "t1" (-2000)%float] (Account.new "ACC1001" 1000%float))
    = (-1000)%float ∧
  negative
    (Account.balance
       (run_calls [call_deposit "t1" (-2000)%float] (Account.new "ACC1001" 1000%float)))
    = true.
Proof. repeat split. Qed.

(** ** Account: a deposit and the withdrawal of the same amount *)

(** C7, as the code has it: when the withdrawal that follows the deposit is
    not refused, it succeeds, the history gains the [DEPOSIT] and then the
    [WITHDRAW] of [amount] at its end, and the balance is the binary64 value
    of [(balance + amount) - amount]; that value [==] the initial balance
    whenever the sum [balance + amount] of the deposit is exact. *)
Theorem deposit_then_withdraw (a : Account.t) (amount : double) (now1 now2 : string) :
  (amount >? (Account.balance a + amount))%float = false →
  ∃ a1 out1 a2 out2,
    Account.deposit now1 amount a = (a1, out1) ∧
    Account.withdraw now2 amount a1 = (true, a2, out2) ∧
    Account.balance a2 = ((Account.balance a + amount) - amount)%float ∧
    (exact_sum (Account.balance a) amount = true →
     (Account.balance a2 =? Account.balance a)%float = true) ∧
    Account.transactions a2 =
      Account.transactions a
        ++ [{| Transaction.type := DEPOSIT;
               Transaction.amount := amount;
               Transaction.timestamp := now1 |};
            {| Transaction.type := WITHDRAW;
               Transaction.amount := amount;
               Transaction.timestamp := now2 |}] ∧
    length (Account.transactions a2) = S (S (length (Account.transactions a))).
Proof.
  intros Hgt. eexists _, _, _, _. split; [reflexivity |].
  unfold Account.withdraw. cbn. rewrite Hgt.
  split; [reflexivity |]. cbn.
  split; [reflexivity |].
  split; [apply double_add_sub_exact |].
  rewrite <- app_assoc. cbn. split; [reflexivity |].
  rewrite length_app. cbn. lia.
Qed.

Lemma deposit_then_withdraw_witness :
  ∃ a1 out1 a2 out2,
    Account.deposit "t1" 500%float (Account.new "ACC1001" 1000%float) = (a1, out1) ∧
    Account.withdraw "t2" 500%float a1 = (true, a2, out2) ∧
    Account.balance a2 = ((1000 + 500) - 500)%float ∧
    (exact_sum 1000%float 500%float = true → (Account.balance a2 =? 1000)%float = true) ∧
    Account.transactions a2 =
      [] ++ [{| Transaction.type := DEPOSIT;
                Transaction.amount := 500%float;
                Transaction.timestamp := "t1" |};
             {| Transaction.type := WITHDRAW;
                Transaction.amount := 500%float;
                Transaction.timestamp := "t2" |}] ∧
    length (Account.transactions a2) = 2.
Proof.
  apply (deposit_then_withdraw (Account.new "ACC1001" 1000%float) 500%float "t1" "t2").
  reflexivity.
Defined.

(** The sum of [main]'s scenario is exact, that of the amounts below is not. *)
Example exact_sum_examples :
  exact_sum 1000%float 500%float = true ∧ exact_sum 0.3%float 0.1%float = false.
Proof. split; vm_compute; reflexivity. Qed.

(** C7 as stated fails: on a balance of 0.3, with [0.1 <= 0.3] before the
    deposit and [0.1 <= 0.4] before the withdrawal, both calls go through and
    the balance ends at 0.30000000000000004, which [==] tells from 0.3. *)
Lemma deposit_then_withdraw_changes_balance :
  (0.1 <=? 0.3)%float = true ∧
  (0.1 <=? 0.3 + 0.1)%float = true ∧
  ∃ a1 out1 a2 out2,
    Account.deposit "t1" 0.1%float (Account.new "ACC1001" 0.3%float) = (a1, out1) ∧
    Account.withdraw "t2" 0.1%float a1 = (true, a2, out2) ∧
    Account.balance a2 = 0.30000000000000004%float ∧
    (Account.balance a2 =? 0.3)%float = false ∧
    Account.balance a2 ≠ Account.balance (Account.new "ACC1001" 0.3%float).
Proof.
  split; [reflexivity |]. split; [reflexivity |].
  eexists _, _, _, _. split; [reflexivity |]. split; [reflexivity |].
  split; [reflexivity |]. split; [reflexivity |].
  cbn. intros Heq. apply (f_equal (λ x, (x =? 0.3)%float)) in Heq.
  vm_compute in Heq. discriminate.
Qed.

(** ** Account: the withdrawal of a negative amount *)

(** C10: on a balance [0 <= B], the withdrawal of an amount [A < 0] is not
    refused: it returns [true], the balance becomes [B - A], which is
    [B + |A|], and the history gains one [WITHDRAW] transaction of the
    negative amount [A]. *)
Theorem withdraw_negative_amount (a : Account.t) (amount : double) (now : string) :
  (0 <=? Account.balance a)%float = true →
  (amount <? 0)%float = true →
  ∃ a' out,
    Account.withdraw now amount a = (true, a', out) ∧
    Account.balance a' = (Account.balance a - amount)%float ∧
    Account.balance a' = (Account.balance a + abs amount)%float ∧
    Account.transactions a' =
      Account.transactions a ++ [{| Transaction.type := WITHDRAW;
                                    Transaction.amount := amount;
                                    Transaction.timestamp := now |}].
Proof.
  intros HB HA. unfold Account.withdraw, gtb.
  rewrite (double_negative_not_gt amount (Account.balance a) HA HB).
  eexists _, _. split; [reflexivity |]. cbn.
  split; [reflexivity |]. split; [| reflexivity].
  by apply double_sub_negative.
Qed.

Lemma withdraw_negative_amount_witness :
  ∃ a' out,
    Account.withdraw "t1" (-250)%float (Account.new "ACC1001" 1000%float) = (true, a', out) ∧
    Account.balance a' = (1000 - -250)%float ∧
    Account.balance a' = (1000 + abs (-250))%float ∧
    Account.transactions a' =
      [] ++ [{| Transaction.type := WITHDRAW;
                Transaction.amount := (-250)%float;
                Transaction.timestamp := "t1" |}].
Proof.
  apply (withdraw_negative_amount (Account.new "ACC1001" 1000%float) (-250)%float "t1");
    reflexivity.
Defined.

(** ** The end-to-end scenario of the specification

    On the bootstrap of [main], through the service contract:
    [deposit(500)] gives 1500, [withdraw(2000)] is refused and changes
    nothing, [withdraw(1500)] gives 0, and the history holds the deposit and
    the one withdrawal that went through. *)
Example alice_scenario :
  ∃ h1 out1 out2 h3 out3,
    deposit "t1" "ACC1001" 500%float Main.bank Main.heap = Some (true, h1, out1) ∧
    getBalance "ACC1001" Main.bank h1 = Some 1500%float ∧
    withdraw "t2" "ACC1001" 2000%float Main.bank h1 = Some (false, h1, out2) ∧
    withdraw "t3" "ACC1001" 1500%float Main.bank h1 = Some (true, h3, out3) ∧
    accountAt h3 !! Main.acc1 =
      Some {| Account.accountNumber := "ACC1001";
              Account.balance := 0%float;
              Account.transactions :=
                [Transaction.new "t1" DEPOSIT 500%float;
                 Transaction.new "t3" WITHDRAW 1500%float] |} ∧
    accountAt h3 !! Main.acc2 = Some (Account.new "ACC2001" 500%float).
Proof.
  eexists _, _, _, _, _.
  split; [vm_compute; reflexivity |].
  split; [vm_compute; reflexivity |].
  split; [vm_compute; reflexivity |].
  split; [vm_compute; reflexivity |].
  split; vm_compute; reflexivity.
Qed.

(** ** Deposits made one after the other

    What [n] deposits of one amount leave when no two of them overlap: [n]
    new [DEPOSIT] entries, and the balance that [n] rounded additions give. *)

Lemma deposits_in_sequence (n : nat) (now : string) (amount : double) :
  ∀ a : Account.t,
    Account.transactions (run_calls (repeat (call_deposit now amount) n) a)
      = Account.transactions a ++ repeat (Transaction.new now DEPOSIT amount) n ∧
    Account.balance (run_calls (repeat (call_deposit now amount) n) a)
      = Nat.iter n (λ b, (b + amount)%float) (Account.balance a).
Proof.
  unfold run_calls.
  induction n as [| n IH]; intros a; cbn [repeat fold_left].
  - cbn. by rewrite app_nil_r.
  - rewrite Nat.iter_succ_r.
    destruct (IH (run_call (call_deposit now amount) a)) as [-> ->].
    cbn. rewrite <- app_assoc. split; reflexivity.
Qed.

(** Ten deposits of 0.1 on an empty account leave 0.99999999999999989, where
    [0 + 10 * 0.1] is 1. *)
Example ten_deposits_of_a_tenth :
  Account.balance (run_calls (repeat (call_deposit "t" 0.1%float) 10) (Account.new "ACC1001" 0%float))
    = 0.99999999999999989%float ∧
  (0 + 10 * 0.1)%float = 1%float ∧
  length (Account.transactions
            (run_calls (repeat (call_deposit "t" 0.1%float) 10) (Account.new "ACC1001" 0%float)))
    = 10.
Proof. repeat split. Qed.

(** * Further properties of the code *)

(** ** Account: the history is a ledger *)

Lemma run_call_ledger (c : call) (a : Account.t) :
  ∃ new,
    Account.transactions (run_call c a) = Account.transactions a ++ new ∧
    (length new ≤ 1)%nat ∧
    Account.accountNumber (run_call c a) = Account.accountNumber a ∧
    Account.balance (run_call c a) = replay new (Account.balance a).
Proof.
  destruct c as [now amount | now amount].
  - eexists [_]. cbn. repeat split. lia.
  - unfold run_call, Account.withdraw.
    destruct (amount >? Account.balance a)%float.
    + exists []. cbn. rewrite app_nil_r. repeat split. lia.
    + eexists [_]. cbn. repeat split. lia.
Qed.

(** X1: whatever deposits and withdrawals are made, the account number stays,
    the history only grows at its end, by at most one entry per call, and
    the balance is the one that the new entries give when replayed in order
    on the balance before. *)
Theorem history_is_ledger (cs : list call) (a : Account.t) :
  ∃ new,
    Account.transactions (run_calls cs a) = Account.transactions a ++ new ∧
    (length new ≤ length cs)%nat ∧
    Account.accountNumber (run_calls cs a) = Account.accountNumber a ∧
    Account.balance (run_calls cs a) = replay new (Account.balance a).
Proof.
  revert a. unfold run_calls.
  induction cs as [| c cs IH]; intros a; cbn [fold_left].
  - exists []. cbn. rewrite app_nil_r. repeat split. lia.
  - destruct (run_call_ledger c a) as (n1 & Ht1 & Hl1 & Hn1 & Hb1).
    destruct (IH (run_call c a)) as (n2 & Ht2 & Hl2 & Hn2 & Hb2).
    exists (n1 ++ n2). rewrite Ht2, Ht1, Hn2, Hn1, Hb2, Hb1.
    rewrite <- app_assoc, length_app. unfold replay. rewrite fold_left_app.
    repeat split. cbn. lia.
Qed.

(** ** Account: a NaN balance *)

Lemma nan_add_l (x y : double) : is_nan x = true → is_nan (x + y) = true.
Proof.
  rewrite !is_nan_Prim2SF, add_spec. by intros ->.
Qed.

Lemma nan_sub_l (x y : double) : is_nan x = true → is_nan (x - y) = true.
Proof.
  rewrite !is_nan_Prim2SF, sub_spec. by intros ->.
Qed.

Lemma nan_not_exceeded (x y : double) : is_nan x = true → (y >? x)%float = false.
Proof.
  rewrite is_nan_Prim2SF. unfold gtb. rewrite ltb_spec. by intros ->.
Qed.

(** X2: once the balance is a NaN it stays one, and the check of [withdraw]
    never fires again: every later call, withdrawals of any amount included,
    goes through and is logged. *)
Theorem nan_balance_is_absorbing (cs : list call) (a : Account.t) :
  is_nan (Account.balance a) = true →
  is_nan (Account.balance (run_calls cs a)) = true ∧
  length (Account.transactions (run_calls cs a))
    = length (Account.transactions a) + length cs.
Proof.
  revert a. unfold run_calls.
  induction cs as [| c cs IH]; intros a Hnan; cbn [fold_left].
  - cbn. split; [exact Hnan | lia].
  - assert (Hstep : is_nan (Account.balance (run_call c a)) = true ∧
                    length (Account.transactions (run_call c a))
                      = S (length (Account.transactions a))).
    { destruct c as [now amount | now amount].
      - cbn. rewrite length_app. cbn. split; [by apply nan_add_l | lia].
      - unfold run_call, Account.withdraw.
        rewrite (nan_not_exceeded _ amount Hnan). cbn.
        rewrite length_app. cbn. split; [by apply nan_sub_l | lia]. }
    destruct Hstep as [Hnan' Hlen'].
    destruct (IH _ Hnan') as [Hn Hl]. split; [exact Hn |].
    rewrite Hl, Hlen'. cbn. lia.
Qed.

Lemma nan_balance_is_absorbing_witness :
  is_nan (Account.balance
            (run_calls [call_withdraw "t1" 1000000%float; call_deposit "t2" 5%float]
                       (Account.new "ACC1001" nan))) = true ∧
  length (Account.transactions
            (run_calls [call_withdraw "t1" 1000000%float; call_deposit "t2" 5%float]
                       (Account.new "ACC1001" nan)))
    = length (Account.transactions (Account.new "ACC1001" nan)) + 2.
Proof.
  apply (nan_balance_is_absorbing
           [call_withdraw "t1" 1000000%float; call_deposit "t2" 5%float]
           (Account.new "ACC1001" nan)).
  reflexivity.
Defined.

(** ** Account: withdrawing the whole balance *)

Section SelfDifference.
Variables prec emax : Z.

Lemma SFltb_irrefl (x : spec_float) : SFltb x x = false.
Proof.
  destruct x as [s | s | | s m e]; try (by destruct s); [reflexivity |].
  unfold SFltb, SFcompare. rewrite Z.compare_refl.
  change (Pos.compare_cont Eq m m) with (m ?= m)%positive.
  rewrite Pos.compare_refl. by destruct s.
Qed.

Lemma SFsub_diag (x : spec_float) :
  (∀ s, x ≠ S754_infinity s) → x ≠ S754_nan →
  SFsub prec emax x x = S754_zero false.
Proof.
  intros Hinf Hnan. destruct x as [s | s | | s m e].
  - by destruct s.
  - by destruct (Hinf s).
  - by destruct Hnan.
  - cbn [SFsub]. rewrite Z.sub_diag. reflexivity.
Qed.

End SelfDifference.

(** X3: the withdrawal of exactly the balance, when that balance is finite,
    is not refused and leaves a balance of zero, with the withdrawal
    logged. *)
Theorem withdraw_whole_balance (a : Account.t) (now : string) :
  is_finite (Account.balance a) = true →
  ∃ a' out,
    Account.withdraw now (Account.balance a) a = (true, a', out) ∧
    Account.balance a' = 0%float ∧
    Account.transactions a' =
      Account.transactions a ++ [Transaction.new now WITHDRAW (Account.balance a)].
Proof.
  intros [Hinf Hnan]%is_finite_Prim2SF. unfold Account.withdraw, gtb.
  rewrite ltb_spec, SFltb_irrefl.
  eexists _, _. split; [reflexivity |]. cbn. split; [| reflexivity].
  apply Prim2SF_inj. rewrite sub_spec. by apply SFsub_diag.
Qed.

Lemma withdraw_whole_balance_witness :
  ∃ a' out,
    Account.withdraw "t1" 0.3%float (Account.new "ACC1001" 0.3%float) = (true, a', out) ∧
    Account.balance a' = 0%float ∧
    Account.transactions a' = [] ++ [Transaction.new "t1" WITHDRAW 0.3%float].
Proof.
  apply (withdraw_whole_balance (Account.new "ACC1001" 0.3%float) "t1").
  reflexivity.
Defined.

(** ** Account: what [showTransactions] streams *)

Lemma streamed_doubles_app (o1 o2 : ostream) :
  streamed_doubles (o1 ++ o2) = streamed_doubles o1 ++ streamed_doubles o2.
Proof. apply flat_map_app. Qed.

Lemma streamed_doubles_shows (ts : list Transaction.t) :
  streamed_doubles (concat (map Transaction.show ts)) = map Transaction.amount ts.
Proof.
  induction ts as [| tr ts IH]; [reflexivity |].
  cbn [map concat]. rewrite streamed_doubles_app, IH. reflexivity.
Qed.

(** X4: [showTransactions] hands to [operator<<] one amount per transaction
    of the history, each once and in the order of the history, so every
    line it writes is formatted from the amount of its own transaction; what
    digits the stream writes for an amount is outside this statement.  On an
    empty history it streams no number, only the one line that says so. *)
Theorem showTransactions_streams_history (a : Account.t) :
  streamed_doubles (Account.showTransactions a)
    = map Transaction.amount (Account.transactions a) ∧
  (Account.transactions a = [] →
   Account.showTransactions a = [Str "No transactions yet."; Endl]).
Proof.
  unfold Account.showTransactions.
  destruct (Account.transactions a) as [| tr ts] eqn:Hts.
  - split; reflexivity.
  - split; [| discriminate].
    rewrite streamed_doubles_app, streamed_doubles_shows. reflexivity.
Qed.

(** ** User: the list of accounts *)

(** X5: a user built by adding accounts one at a time lists exactly those
    accounts, in the order added and with repetitions kept, and answers
    [authenticate] as before any was added. *)
Theorem addAccount_keeps_order_and_pin (n p : string) (accs : list ptr) (s : string) :
  User.getAccounts (fold_left (λ u acc, User.addAccount acc u) accs (User.new n p)) = accs ∧
  User.authenticate s (fold_left (λ u acc, User.addAccount acc u) accs (User.new n p))
    = User.authenticate s (User.new n p).
Proof.
  assert (Hgen : ∀ u : User.t,
    User.getAccounts (fold_left (λ u acc, User.addAccount acc u) accs u)
      = User.getAccounts u ++ accs ∧
    User.pin (fold_left (λ u acc, User.addAccount acc u) accs u) = User.pin u).
  { induction accs as [| acc accs IH]; intros u; cbn [fold_left].
    - by rewrite app_nil_r.
    - destruct (IH (User.addAccount acc u)) as [-> ->]. cbn.
      by rewrite <- app_assoc. }
  destruct (Hgen (User.new n p)) as [Haccs Hpin].
  split; [exact Haccs |]. unfold User.authenticate. by rewrite Hpin.
Qed.

(** ** BankService: operations on a registered account *)

Lemma storeAccount_same (p : ptr) (a : Account.t) (h : Heap) :
  accountAt h !! p = Some a → storeAccount p a h = h.
Proof.
  intros Hp. destruct h as [accs usrs]. unfold storeAccount. cbn in *.
  f_equal. by apply insert_id.
Qed.

(** X6: a [deposit] through the service on a registered identifier returns
    [true], replaces the account that the identifier points to by the result
    of [Account::deposit], so that [getBalance] then answers the old balance
    plus the amount, and leaves every other account and every user as they
    were. *)
Theorem service_deposit_registered
    (b : BankService.t) (h : Heap) (accNum now : string) (amount : double)
    (acc : ptr) (a : Account.t) :
  BankService.accounts b !! accNum = Some acc →
  accountAt h !! acc = Some a →
  ∃ h' out,
    deposit now accNum amount b h = Some (true, h', out) ∧
    accountAt h' !! acc = Some (Account.deposit now amount a).1 ∧
    getBalance accNum b h' = Some (Account.balance a + amount)%float ∧
    (∀ p, p ≠ acc → accountAt h' !! p = accountAt h !! p) ∧
    userAt h' = userAt h.
Proof.
  intros Hacc Ha. cbn.
  unfold BankService.deposit, BankService.getBalance, BankService.getAccount.
  rewrite Hacc, Ha. cbn.
  eexists _, _. split; [reflexivity |]. cbn.
  rewrite lookup_insert_eq. repeat split.
  intros p Hp. by rewrite lookup_insert_ne.
Qed.

Lemma service_deposit_registered_witness :
  ∃ h' out,
    deposit "t1" "ACC1001" 500%float Main.bank Main.heap = Some (true, h', out) ∧
    accountAt h' !! Main.acc1
      = Some (Account.deposit "t1" 500%float (Account.new "ACC1001" 1000%float)).1 ∧
    getBalance "ACC1001" Main.bank h' = Some (1000 + 500)%float ∧
    (∀ p, p ≠ Main.acc1 → accountAt h' !! p = accountAt Main.heap !! p) ∧
    userAt h' = userAt Main.heap.
Proof.
  apply (service_deposit_registered Main.bank Main.heap "ACC1001" "t1" 500%float
           Main.acc1 (Account.new "ACC1001" 1000%float));
    vm_compute; reflexivity.
Defined.

(** X7: a [withdraw] through the service on a registered identifier returns
    what [Account::withdraw] returns on the account it points to; refused, it
    leaves the whole heap as it was; accepted, it changes that one account
    and nothing else. *)
Theorem service_withdraw_registered
    (b : BankService.t) (h : Heap) (accNum now : string) (amount : double)
    (acc : ptr) (a : Account.t) :
  BankService.accounts b !! accNum = Some acc →
  accountAt h !! acc = Some a →
  ∃ h' out,
    withdraw now accNum amount b h
      = Some (negb (amount >? Account.balance a)%float, h', out) ∧
    ((amount >? Account.balance a)%float = true → h' = h) ∧
    ((amount >? Account.balance a)%float = false →
       getBalance accNum b h' = Some (Account.balance a - amount)%float) ∧
    accountAt h' !! acc = Some (Account.withdraw now amount a).1.2 ∧
    (∀ p, p ≠ acc → accountAt h' !! p = accountAt h !! p) ∧
    userAt h' = userAt h.
Proof.
  intros Hacc Ha. cbn.
  unfold BankService.withdraw, BankService.getBalance, BankService.getAccount.
  rewrite Hacc, Ha. unfold Account.withdraw.
  destruct (amount >? Account.balance a)%float eqn:Hgt; cbn.
  - eexists _, _. split; [reflexivity |].
    rewrite (storeAccount_same acc a h Ha). rewrite Ha. repeat split; done.
  - eexists _, _. split; [reflexivity |]. cbn.
    rewrite lookup_insert_eq. repeat split; try done.
    intros p Hp. by rewrite lookup_insert_ne.
Qed.

Lemma service_withdraw_registered_witness :
  ∃ h' out,
    withdraw "t1" "ACC2001" 700%float Main.bank Main.heap
      = Some (negb (700 >? Account.balance (Account.new "ACC2001" 500%float))%float, h', out) ∧
    ((700 >? Account.balance (Account.new "ACC2001" 500%float))%float = true
       → h' = Main.heap) ∧
    ((700 >? Account.balance (Account.new "ACC2001" 500%float))%float = false →
       getBalance "ACC2001" Main.bank h'
         = Some (Account.balance (Account.new "ACC2001" 500%float) - 700)%float) ∧
    accountAt h' !! Main.acc2
      = Some (Account.withdraw "t1" 700%float (Account.new "ACC2001" 500%float)).1.2 ∧
    (∀ p, p ≠ Main.acc2 → accountAt h' !! p = accountAt Main.heap !! p) ∧
    userAt h' = userAt Main.heap.
Proof.
  apply (service_withdraw_registered Main.bank Main.heap "ACC2001" "t1" 700%float
           Main.acc2 (Account.new "ACC2001" 500%float));
    vm_compute; reflexivity.
Defined.

(** ** BankService: what [addUser] registers *)

Lemma getUserByAccount_lookup (k : string) (b : BankService.t) :
  BankService.getUserByAccount k b = BankService.users b !! k.
Proof. unfold BankService.getUserByAccount. by destruct (BankService.users b !! k). Qed.

Lemma getAccount_lookup (k : string) (b : BankService.t) :
  BankService.getAccount k b = BankService.accounts b !! k.
Proof. unfold BankService.getAccount. by destruct (BankService.accounts b !! k). Qed.

Lemma addUser_loop_lookup (h : Heap) (user : ptr) (accs : list ptr) :
  ∀ b b' : BankService.t,
    BankService.addUser_loop h user accs b = Some b' →
    (∀ k, k ∈ account_numbers h accs →
       BankService.users b' !! k = Some user ∧
       ∃ acc a, acc ∈ accs ∧ accountAt h !! acc = Some a ∧
                Account.accountNumber a = k ∧
                BankService.accounts b' !! k = Some acc) ∧
    (∀ k, k ∉ account_numbers h accs →
       BankService.users b' !! k = BankService.users b !! k ∧
       BankService.accounts b' !! k = BankService.accounts b !! k).
Proof.
  induction accs as [| acc rest IH]; intros b b' Hloop; cbn in Hloop.
  - injection Hloop as <-. split; [| done].
    intros k Hk. by apply elem_of_nil in Hk.
  - unfold BankService.addUser_step in Hloop.
    destruct (accountAt h !! acc) as [a |] eqn:Ha; [| discriminate].
    destruct (IH _ _ Hloop) as [IHin IHout].
    assert (Hnums : account_numbers h (acc :: rest)
                    = Account.accountNumber a :: account_numbers h rest).
    { unfold account_numbers. cbn. by rewrite Ha. }
    rewrite Hnums. split.
    + intros k Hk. destruct (decide (k ∈ account_numbers h rest)) as [Hin | Hnin].
      * destruct (IHin k Hin) as (Hu & acc' & a' & Hacc' & Ha' & Hk' & Haccs).
        split; [exact Hu |]. exists acc', a'. rewrite elem_of_cons. auto.
      * apply elem_of_cons in Hk as [-> | Hk]; [| done].
        destruct (IHout _ Hnin) as [-> ->]. cbn. rewrite !lookup_insert_eq.
        split; [reflexivity |]. exists acc, a. rewrite elem_of_cons. auto.
    + intros k [Hne Hnin]%not_elem_of_cons.
      destruct (IHout _ Hnin) as [-> ->]. cbn.
      by rewrite !lookup_insert_ne.
Qed.

Lemma addUser_loop_live (h : Heap) (user : ptr) (accs : list ptr) :
  ∀ b b' : BankService.t,
    BankService.addUser_loop h user accs b = Some b' →
    ∀ acc, acc ∈ accs → ∃ a, accountAt h !! acc = Some a ∧
                             Account.accountNumber a ∈ account_numbers h accs.
Proof.
  intros b b' Hloop acc Hacc.
  assert (Hlive : ∃ a, accountAt h !! acc = Some a).
  { revert b Hloop. induction accs as [| acc0 rest IH]; intros b Hloop.
    - by apply elem_of_nil in Hacc.
    - cbn in Hloop. unfold BankService.addUser_step in Hloop.
      destruct (accountAt h !! acc0) as [a0 |] eqn:Ha0; [| discriminate].
      apply elem_of_cons in Hacc as [-> | Hacc]; [eauto |].
      eapply IH; eauto. }
  destruct Hlive as [a Ha]. exists a. split; [exact Ha |].
  unfold account_numbers. apply list_elem_of_omap. exists acc.
  split; [exact Hacc |]. by rewrite Ha.
Qed.

(** X8: after [addUser] every account that the user lists is registered under
    its number: [getUserByAccount] of the number answers the user, whoever
    held the number before, and [getAccount] answers an account of the list
    that bears the number. *)
Theorem addUser_registers_accounts (h : Heap) (user : ptr) (b b' : BankService.t) :
  BankService.addUser h user b = Some b' →
  ∃ u, userAt h !! user = Some u ∧
    ∀ acc, acc ∈ User.getAccounts u →
      ∃ a, accountAt h !! acc = Some a ∧
        getUserByAccount (Account.accountNumber a) b' = Some user ∧
        ∃ acc' a', getAccount (Account.accountNumber a) b' = Some acc' ∧
                   acc' ∈ User.getAccounts u ∧
                   accountAt h !! acc' = Some a' ∧
                   Account.accountNumber a' = Account.accountNumber a.
Proof.
  unfold BankService.addUser. intros Hadd.
  destruct (userAt h !! user) as [u |] eqn:Hu; [| discriminate].
  exists u. split; [reflexivity |]. intros acc Hacc.
  destruct (addUser_loop_live _ _ _ _ _ Hadd acc Hacc) as (a & Ha & Hnum).
  destruct (addUser_loop_lookup _ _ _ _ _ Hadd) as [Hin _].
  destruct (Hin _ Hnum) as (Husr & acc' & a' & Hacc' & Ha' & Hk & Haccs).
  exists a. split; [exact Ha |]. cbn.
  rewrite getUserByAccount_lookup, getAccount_lookup.
  split; [exact Husr |]. exists acc', a'. auto.
Qed.

Lemma addUser_registers_accounts_witness :
  ∃ u, userAt Main.heap !! Main.user2 = Some u ∧
    ∀ acc, acc ∈ User.getAccounts u →
      ∃ a, accountAt Main.heap !! acc = Some a ∧
        getUserByAccount (Account.accountNumber a) Main.bank = Some Main.user2 ∧
        ∃ acc' a', getAccount (Account.accountNumber a) Main.bank = Some acc' ∧
                   acc' ∈ User.getAccounts u ∧
                   accountAt Main.heap !! acc' = Some a' ∧
                   Account.accountNumber a' = Account.accountNumber a.
Proof.
  apply (addUser_registers_accounts Main.heap Main.user2
           {| BankService.users := <["ACC1001" := Main.user1]> ∅;
              BankService.accounts := <["ACC1001" := Main.acc1]> ∅ |}
           Main.bank).
  vm_compute. reflexivity.
Defined.

(** X9: [addUser] touches no identifier other than the numbers of the
    accounts that the user lists: every other entry of both maps is as
    before, and a user who lists no account leaves the directory as it
    was. *)
Theorem addUser_leaves_other_numbers (h : Heap) (user : ptr) (b b' : BankService.t) :
  BankService.addUser h user b = Some b' →
  ∃ u, userAt h !! user = Some u ∧
    (∀ k, k ∉ account_numbers h (User.getAccounts u) →
       getUserByAccount k b' = getUserByAccount k b ∧
       getAccount k b' = getAccount k b) ∧
    (User.getAccounts u = [] → b' = b).
Proof.
  unfold BankService.addUser. intros Hadd.
  destruct (userAt h !! user) as [u |] eqn:Hu; [| discriminate].
  exists u. split; [reflexivity |]. split.
  - intros k Hk. cbn. rewrite !getUserByAccount_lookup, !getAccount_lookup.
    destruct (addUser_loop_lookup _ _ _ _ _ Hadd) as [_ Hout]. by apply Hout.
  - intros Hnil. rewrite Hnil in Hadd. cbn in Hadd. congruence.
Qed.

Lemma addUser_leaves_other_numbers_witness :
  ∃ u, userAt Main.heap !! Main.user2 = Some u ∧
    (∀ k, k ∉ account_numbers Main.heap (User.getAccounts u) →
       getUserByAccount k Main.bank
         = getUserByAccount k {| BankService.users := <["ACC1001" := Main.user1]> ∅;
                                 BankService.accounts := <["ACC1001" := Main.acc1]> ∅ |} ∧
       getAccount k Main.bank
         = getAccount k {| BankService.users := <["ACC1001" := Main.user1]> ∅;
                           BankService.accounts := <["ACC1001" := Main.acc1]> ∅ |}) ∧
    (User.getAccounts u = [] →
     Main.bank = {| BankService.users := <["ACC1001" := Main.user1]> ∅;
                    BankService.accounts := <["ACC1001" := Main.acc1]> ∅ |}).
Proof.
  apply (addUser_leaves_other_numbers Main.heap Main.user2
           {| BankService.users := <["ACC1001" := Main.user1]> ∅;
              BankService.accounts := <["ACC1001" := Main.acc1]> ∅ |}
           Main.bank).
  vm_compute. reflexivity.
Defined.

(** ** BankService: the directory and the heap agree *)

Lemma addUser_step_ok (h : Heap) (user acc : ptr) (b b' : BankService.t) :
  is_Some (userAt h !! user) →
  BankService.addUser_step h user acc b = Some b' →
  directory_ok b h → directory_ok b' h.
Proof.
  unfold BankService.addUser_step. intros Huser Hstep (Haccs & Husers & Hdom).
  destruct (accountAt h !! acc) as [a |] eqn:Ha; [| discriminate].
  injection Hstep as <-. split; [| split]; cbn.
  - apply map_Forall_insert_2; [| exact Haccs]. by rewrite Ha.
  - intros k p. cbn. rewrite lookup_insert. case_decide.
    + by intros [= <-].
    + apply Husers.
  - rewrite !dom_insert_L. congruence.
Qed.

Lemma addUser_loop_ok (h : Heap) (user : ptr) (accs : list ptr) :
  is_Some (userAt h !! user) →
  ∀ b b' : BankService.t,
    BankService.addUser_loop h user accs b = Some b' →
    directory_ok b h → directory_ok b' h.
Proof.
  intros Huser. induction accs as [| acc rest IH]; intros b b' Hloop Hok; cbn in Hloop.
  - congruence.
  - destruct (BankService.addUser_step h user acc b) as [b1 |] eqn:Hstep; [| discriminate].
    eapply IH; [exact Hloop |]. eapply addUser_step_ok; eauto.
Qed.

(** X10: a directory built from the empty one by [addUser] calls, with the
    heap as it is now, agrees with that heap: every registered identifier
    leads to a live account that bears the identifier as its number and to a
    live user, and both maps have the same keys. *)
Theorem addUsers_directory_ok (h : Heap) (registered : list ptr) (b : BankService.t) :
  addUsers ((λ user, (h, user)) <$> registered) BankService.new = Some b →
  directory_ok b h.
Proof.
  assert (Hgen : ∀ b0 : BankService.t,
    addUsers ((λ user, (h, user)) <$> registered) b0 = Some b →
    directory_ok b0 h → directory_ok b h).
  { induction registered as [| user rest IH]; intros b0 Hrun Hok; cbn in Hrun.
    - congruence.
    - destruct (BankService.addUser h user b0) as [b1 |] eqn:Hadd; [| discriminate].
      apply (IH b1 Hrun). unfold BankService.addUser in Hadd.
      destruct (userAt h !! user) as [u |] eqn:Hu; [| discriminate].
      eapply addUser_loop_ok; eauto. }
  intros Hrun. apply (Hgen _ Hrun). split; [| split]; cbn.
  - apply map_Forall_empty.
  - intros k p. cbn. by rewrite lookup_empty.
  - by rewrite !dom_empty_L.
Qed.

Lemma addUsers_directory_ok_witness : directory_ok Main.bank Main.heap.
Proof.
  apply (addUsers_directory_ok Main.heap [Main.user1; Main.user2] Main.bank).
  vm_compute. reflexivity.
Defined.

Lemma directory_ok_store (b : BankService.t) (h : Heap) (acc : ptr) (a a' : Account.t) :
  directory_ok b h →
  accountAt h !! acc = Some a →
  Account.accountNumber a' = Account.accountNumber a →
  directory_ok b (storeAccount acc a' h).
Proof.
  intros (Haccs & Husers & Hdom) Ha Hnum. split; [| split]; [| exact Husers | exact Hdom].
  intros k p Hk. specialize (Haccs k p Hk). cbn in *.
  rewrite lookup_insert. case_decide as Hp.
  - subst p. rewrite Ha in Haccs. cbn in *.
    unfold Account.getAccountNumber in *. congruence.
  - exact Haccs.
Qed.

(** X11: [deposit] and [withdraw] through the service keep the agreement of
    the directory and the heap: whatever they do to an account, its number
    and its place in the heap stay. *)
Theorem service_keeps_directory_ok
    (b : BankService.t) (h h' : Heap) (accNum now : string) (amount : double)
    (ok : bool) (out : ostream) :
  directory_ok b h →
  deposit now accNum amount b h = Some (ok, h', out)
  ∨ withdraw now accNum amount b h = Some (ok, h', out) →
  directory_ok b h'.
Proof.
  intros Hok Hcall. cbn in Hcall.
  unfold BankService.deposit, BankService.withdraw in Hcall.
  destruct (BankService.getAccount accNum b) as [acc |].
  - destruct (accountAt h !! acc) as [a |] eqn:Ha.
    + destruct Hcall as [Hcall | Hcall].
      * injection Hcall as _ <- _. by eapply directory_ok_store.
      * destruct (Account.withdraw now amount a) as [[ok' a'] out'] eqn:Hw.
        injection Hcall as _ <- _. eapply directory_ok_store; eauto.
        unfold Account.withdraw in Hw.
        destruct (amount >? Account.balance a)%float; by injection Hw as _ <- _.
    + destruct Hcall; discriminate.
  - destruct Hcall as [Hcall | Hcall]; by injection Hcall as _ <- _.
Qed.

Lemma service_keeps_directory_ok_witness :
  directory_ok Main.bank
    (storeAccount Main.acc1
       (Account.deposit "t1" 500%float (Account.new "ACC1001" 1000%float)).1 Main.heap).
Proof.
  apply (service_keeps_directory_ok Main.bank Main.heap _ "ACC1001" "t1" 500%float true
           [Str "Deposit successful! Balance: $"; Dbl 1500%float; Endl]).
  - evaluate_directory_ok.
  - left. vm_compute. reflexivity.
Defined.

(** X12: when the directory and the heap agree, no operation of the service
    contract and no login dereferences a dangling pointer, whatever the
    identifier, the amount and the PIN. *)
Theorem directory_ok_no_undefined_behaviour
    (b : BankService.t) (h : Heap) (accNum now pin : string) (amount : double)
    (atm : ATM.t) :
  directory_ok b h →
  is_Some (deposit now accNum amount b h) ∧
  is_Some (withdraw now accNum amount b h) ∧
  is_Some (getBalance accNum b h) ∧
  is_Some (showTransactions accNum b h) ∧
  is_Some (ATM.login b h accNum pin atm).
Proof.
  intros (Haccs & Husers & _).
  assert (Hlogin : is_Some (ATM.login b h accNum pin atm)).
  { unfold ATM.login. cbn. rewrite getUserByAccount_lookup.
    destruct (BankService.users b !! accNum) as [user |] eqn:Hu; [| by eexists].
    destruct (Husers _ _ Hu) as [u ->]. destruct (User.authenticate pin u); by eexists. }
  assert (Hacc : BankService.getAccount accNum b = None
                 ∨ ∃ acc a, BankService.getAccount accNum b = Some acc ∧
                            accountAt h !! acc = Some a).
  { rewrite getAccount_lookup.
    destruct (BankService.accounts b !! accNum) as [acc |] eqn:Hacc; [right | by left].
    specialize (Haccs _ _ Hacc). cbn in Haccs.
    destruct (accountAt h !! acc) as [a |] eqn:Ha; [eauto | discriminate]. }
  cbn. unfold BankService.deposit, BankService.withdraw, BankService.getBalance,
    BankService.showTransactions.
  destruct Hacc as [-> | (acc & a & -> & ->)].
  - repeat split; try (by eexists). exact Hlogin.
  - destruct (Account.withdraw now amount a) as [[ok a'] out].
    repeat split; try (by eexists). exact Hlogin.
Qed.

Lemma directory_ok_no_undefined_behaviour_witness :
  is_Some (deposit "t1" "ACC1001" (-5)%float Main.bank Main.heap) ∧
  is_Some (withdraw "t1" "ACC1001" (-5)%float Main.bank Main.heap) ∧
  is_Some (getBalance "ACC1001" Main.bank Main.heap) ∧
  is_Some (showTransactions "ACC1001" Main.bank Main.heap) ∧
  is_Some (ATM.login Main.bank Main.heap "ACC1001" "0000" ATM.new).
Proof.
  apply (directory_ok_no_undefined_behaviour Main.bank Main.heap "ACC1001" "t1" "0000"
           (-5)%float ATM.new).
  evaluate_directory_ok.
Defined.

(** ** ATM: sessions *)

(** X13: when the directory and the heap agree, a successful [login] leaves
    a session whose [currentUser] is the user registered under the
    identifier and whose [currentAccount] is a live account that bears the
    identifier as its number: neither pointer is null. *)
Theorem login_gives_consistent_session
    (b : BankService.t) (h : Heap) (accNum pin : string) (atm atm' : ATM.t)
    (out : ostream) :
  directory_ok b h →
  ATM.login b h accNum pin atm = Some (true, atm', out) →
  ∃ user cur a,
    ATM.currentUser atm' = Some user ∧
    BankService.users b !! accNum = Some user ∧
    ATM.currentAccount atm' = Some cur ∧
    BankService.accounts b !! accNum = Some cur ∧
    accountAt h !! cur = Some a ∧
    Account.accountNumber a = accNum.
Proof.
  intros (Haccs & Husers & Hdom) Hlogin.
  unfold ATM.login in Hlogin. cbn in Hlogin.
  rewrite getUserByAccount_lookup, getAccount_lookup in Hlogin.
  destruct (BankService.users b !! accNum) as [user |] eqn:Hu; [| discriminate].
  destruct (userAt h !! user) as [u |]; [| discriminate].
  destruct (User.authenticate pin u); [| discriminate].
  injection Hlogin as <- _.
  assert (Hin : accNum ∈ dom (BankService.accounts b)).
  { rewrite <- Hdom. apply elem_of_dom. by eexists. }
  apply elem_of_dom in Hin as [cur Hcur].
  pose proof (Haccs _ _ Hcur) as Hnum. cbn in Hnum.
  destruct (accountAt h !! cur) as [a |] eqn:Ha; [| discriminate].
  injection Hnum as Hnum.
  exists user, cur, a. cbn. rewrite Hcur. repeat split; done.
Qed.

Lemma login_gives_consistent_session_witness :
  ∃ user cur a,
    ATM.currentUser
      {| ATM.currentUser := Some Main.user1; ATM.currentAccount := Some Main.acc1 |}
      = Some user ∧
    BankService.users Main.bank !! "ACC1001" = Some user ∧
    ATM.currentAccount
      {| ATM.currentUser := Some Main.user1; ATM.currentAccount := Some Main.acc1 |}
      = Some cur ∧
    BankService.accounts Main.bank !! "ACC1001" = Some cur ∧
    accountAt Main.heap !! cur = Some a ∧
    Account.accountNumber a = "ACC1001".
Proof.
  apply (login_gives_consistent_session Main.bank Main.heap "ACC1001" "1234" ATM.new
           {| ATM.currentUser := Some Main.user1; ATM.currentAccount := Some Main.acc1 |}
           [Str ("Login successful!" +:+ nl)]).
  - evaluate_directory_ok.
  - vm_compute. reflexivity.
Defined.

(** X14: [login] does not look at the session it is called in: a failed
    attempt leaves the session as it was, logged in or not, and a successful
    one replaces whatever session there was, with no logout in between. *)
Theorem login_ignores_current_session
    (b : BankService.t) (h : Heap) (accNum pin : string) (atm atm' : ATM.t)
    (ok : bool) (out : ostream) :
  ATM.login b h accNum pin atm = Some (ok, atm', out) →
  (ok = false → atm' = atm) ∧
  (ok = true → ∀ atm0, ATM.login b h accNum pin atm0 = Some (true, atm', out)).
Proof.
  unfold ATM.login. cbn.
  destruct (BankService.getUserByAccount accNum b) as [user |].
  - destruct (userAt h !! user) as [u |]; [| discriminate].
    destruct (User.authenticate pin u); intros [= <- <- <-]; split; done.
  - intros [= <- <- <-]. split; done.
Qed.

Lemma login_ignores_current_session_witness :
  (false = false →
   {| ATM.currentUser := Some Main.user2; ATM.currentAccount := Some Main.acc2 |}
   = {| ATM.currentUser := Some Main.user2; ATM.currentAccount := Some Main.acc2 |}) ∧
  (false = true →
   ∀ atm0, ATM.login Main.bank Main.heap "ACC1001" "wrong" atm0
           = Some (true,
                   {| ATM.currentUser := Some Main.user2;
                      ATM.currentAccount := Some Main.acc2 |},
                   [Str ("Invalid account number or PIN." +:+ nl)])).
Proof.
  apply (login_ignores_current_session Main.bank Main.heap "ACC1001" "wrong"
           {| ATM.currentUser := Some Main.user2; ATM.currentAccount := Some Main.acc2 |}).
  vm_compute. reflexivity.
Defined.

(** ** ATM: the menu loop *)

Lemma storeAccount_twice (p : ptr) (a1 a2 : Account.t) (h : Heap) :
  storeAccount p a2 (storeAccount p a1 h) = storeAccount p a2 h.
Proof. unfold storeAccount. cbn. f_equal. apply insert_insert_eq. Qed.

Lemma run_call_accountNumber (c : call) (a : Account.t) :
  Account.accountNumber (run_call c a) = Account.accountNumber a.
Proof. by destruct (run_call_ledger c a) as (_ & _ & _ & -> & _). Qed.

Lemma run_calls_accountNumber (cs : list call) (a : Account.t) :
  Account.accountNumber (run_calls cs a) = Account.accountNumber a.
Proof.
  revert a. unfold run_calls. induction cs as [| c cs IH]; intros a; cbn; [done |].
  by rewrite IH, run_call_accountNumber.
Qed.

Lemma menu_calls_cons (tn : ATM.turn) (rest : list ATM.turn) :
  menu_calls (tn :: rest)
    = if (ATM.choice tn =? 5)%Z then [] else menu_calls [tn] ++ menu_calls rest.
Proof.
  cbn [menu_calls]. destruct (ATM.choice tn) as [| p | p]; try reflexivity.
  do 3 (destruct p as [p | p |]; try reflexivity).
Qed.

(** One turn on a session whose current account is registered under its own
    number. *)
Lemma menu_switch_effect
    (b : BankService.t) (h : Heap) (atm : ATM.t) (tn : ATM.turn)
    (cur : ptr) (a : Account.t) :
  ATM.currentAccount atm = Some cur →
  accountAt h !! cur = Some a →
  BankService.accounts b !! Account.accountNumber a = Some cur →
  ∃ o, ATM.menu_switch b tn atm h
       = Some (if (ATM.choice tn =? 5)%Z then ATM.new else atm,
               storeAccount cur (run_calls (menu_calls [tn]) a) h, o).
Proof.
  intros Hcur Ha Hreg.
  assert (Hsame : storeAccount cur a h = h) by by apply storeAccount_same.
  assert (Hnum : ATM.currentAccountNumber atm h = Some (Account.accountNumber a)).
  { unfold ATM.currentAccountNumber. by rewrite Hcur, Ha. }
  unfold ATM.menu_switch. rewrite Hnum. cbn.
  unfold BankService.getBalance, BankService.deposit, BankService.withdraw,
    BankService.showTransactions.
  rewrite getAccount_lookup, Hreg, Ha.
  destruct (Account.withdraw (ATM.now tn) (ATM.amount tn) a) as [[ok a'] out] eqn:Hw.
  assert (Ha' : a' = (Account.withdraw (ATM.now tn) (ATM.amount tn) a).1.2)
    by by rewrite Hw.
  destruct (ATM.choice tn) as [| p | p]; cbn; rewrite ?Hsame; [by eexists | | by eexists].
  repeat first
    [ by eexists
    | subst a'; by eexists
    | destruct p as [p | p |]; cbn; rewrite ?Hsame ].
Qed.

Lemma menu_loop_effect
    (b : BankService.t) (atm : ATM.t) (user cur : ptr) (input : list ATM.turn) :
  ATM.currentUser atm = Some user →
  ATM.currentAccount atm = Some cur →
  ∀ (h : Heap) (a : Account.t) (out0 : ostream),
    accountAt h !! cur = Some a →
    BankService.accounts b !! Account.accountNumber a = Some cur →
    ∃ out,
      ATM.menu_loop b input atm h out0
        = if asks_logout input
          then ATM.Returned ATM.new (storeAccount cur (run_calls (menu_calls input) a) h) out
          else ATM.Starved atm (storeAccount cur (run_calls (menu_calls input) a) h) out.
Proof.
  intros Huser Hcur.
  induction input as [| tn rest IH]; intros h a out0 Ha Hreg.
  - cbn. rewrite (storeAccount_same cur a h Ha). by eexists.
  - cbn [ATM.menu_loop asks_logout existsb].
    destruct (menu_switch_effect b h atm tn cur a Hcur Ha Hreg) as [o ->].
    rewrite (menu_calls_cons tn rest).
    destruct (ATM.choice tn =? 5)%Z eqn:Hfive; cbn [negb andb orb].
    + replace (menu_calls [tn]) with (@nil call); [by eexists |].
      rewrite (menu_calls_cons tn []), Hfive. reflexivity.
    + rewrite Huser.
      set (a1 := run_calls (menu_calls [tn]) a).
      destruct (IH (storeAccount cur a1 h) a1 (out0 ++ ATM.menu ++ o)) as [out Hout].
      * cbn. apply lookup_insert_eq.
      * unfold a1. by rewrite run_calls_accountNumber.
      * rewrite Hout, !storeAccount_twice.
        unfold run_calls at 3 4. rewrite fold_left_app. fold a1.
        by eexists.
Qed.

(** X15: in a session whose current account is registered under its own
    number, [showMenu] never dereferences a dangling pointer; it changes the
    heap only at the current account, which ends as the deposits and
    withdrawals asked for up to the first logout leave it, run in order; and
    it returns exactly when some turn asks for the logout, with both session
    pointers null. *)
Theorem showMenu_runs_the_calls
    (b : BankService.t) (h : Heap) (atm : ATM.t) (input : list ATM.turn)
    (user cur : ptr) (a : Account.t) :
  ATM.currentUser atm = Some user →
  ATM.currentAccount atm = Some cur →
  accountAt h !! cur = Some a →
  BankService.accounts b !! Account.accountNumber a = Some cur →
  ∃ out,
    ATM.showMenu b input atm h
      = if asks_logout input
        then ATM.Returned ATM.new (storeAccount cur (run_calls (menu_calls input) a) h) out
        else ATM.Starved atm (storeAccount cur (run_calls (menu_calls input) a) h) out.
Proof.
  intros Huser Hcur Ha Hreg. unfold ATM.showMenu. rewrite Huser.
  by eapply menu_loop_effect.
Qed.

Lemma showMenu_runs_the_calls_witness :
  ∃ out,
    ATM.showMenu Main.bank
      [ATM.mkTurn 2 500%float "t1"; ATM.mkTurn 3 2000%float "t2";
       ATM.mkTurn 7 0%float "t3"; ATM.mkTurn 3 1500%float "t4";
       ATM.mkTurn 5 0%float "t5"; ATM.mkTurn 2 99%float "t6"]
      {| ATM.currentUser := Some Main.user1; ATM.currentAccount := Some Main.acc1 |}
      Main.heap
      = if asks_logout
             [ATM.mkTurn 2 500%float "t1"; ATM.mkTurn 3 2000%float "t2";
              ATM.mkTurn 7 0%float "t3"; ATM.mkTurn 3 1500%float "t4";
              ATM.mkTurn 5 0%float "t5"; ATM.mkTurn 2 99%float "t6"]
        then ATM.Returned ATM.new
               (storeAccount Main.acc1
                  (run_calls
                     (menu_calls
                        [ATM.mkTurn 2 500%float "t1"; ATM.mkTurn 3 2000%float "t2";
                         ATM.mkTurn 7 0%float "t3"; ATM.mkTurn 3 1500%float "t4";
                         ATM.mkTurn 5 0%float "t5"; ATM.mkTurn 2 99%float "t6"])
                     (Account.new "ACC1001" 1000%float))
                  Main.heap) out
        else ATM.Starved
               {| ATM.currentUser := Some Main.user1; ATM.currentAccount := Some Main.acc1 |}
               (storeAccount Main.acc1
                  (run_calls
                     (menu_calls
                        [ATM.mkTurn 2 500%float "t1"; ATM.mkTurn 3 2000%float "t2";
                         ATM.mkTurn 7 0%float "t3"; ATM.mkTurn 3 1500%float "t4";
                         ATM.mkTurn 5 0%float "t5"; ATM.mkTurn 2 99%float "t6"])
                     (Account.new "ACC1001" 1000%float))
                  Main.heap) out.
Proof.
  apply (showMenu_runs_the_calls Main.bank Main.heap
           {| ATM.currentUser := Some Main.user1; ATM.currentAccount := Some Main.acc1 |}
           _ Main.user1 Main.acc1 (Account.new "ACC1001" 1000%float));
    vm_compute; reflexivity.
Defined.

(** The session of the specification's scenario, typed at the menu: the
    account ends at 0 with the deposit and the one accepted withdrawal in
    its history, and the deposit typed after the logout is not made. *)
Example menu_scenario :
  ∃ out h',
    ATM.showMenu Main.bank
      [ATM.mkTurn 2 500%float "t1"; ATM.mkTurn 3 2000%float "t2";
       ATM.mkTurn 7 0%float "t3"; ATM.mkTurn 3 1500%float "t4";
       ATM.mkTurn 5 0%float "t5"; ATM.mkTurn 2 99%float "t6"]
      {| ATM.currentUser := Some Main.user1; ATM.currentAccount := Some Main.acc1 |}
      Main.heap
      = ATM.Returned ATM.new h' out ∧
    accountAt h' !! Main.acc1 =
      Some {| Account.accountNumber := "ACC1001";
              Account.balance := 0%float;
              Account.transactions :=
                [Transaction.new "t1" DEPOSIT 500%float;
                 Transaction.new "t4" WITHDRAW 1500%float] |}.
Proof. eexists _, _. split; vm_compute; reflexivity. Qed.

(** ** BankService: the pointers that [addUser] follows *)

(** X16: [addUser] dereferences the user and each account that the user
    lists, and nothing else: it is defined exactly when all of these are
    objects of the heap, whatever the directory holds. *)
Theorem addUser_defined_iff (h : Heap) (user : ptr) (b : BankService.t) :
  is_Some (BankService.addUser h user b)
  ↔ ∃ u, userAt h !! user = Some u ∧
         Forall (λ acc, is_Some (accountAt h !! acc)) (User.getAccounts u).
Proof.
  split.
  - intros [b' Hadd]. unfold BankService.addUser in Hadd.
    destruct (userAt h !! user) as [u |] eqn:Hu; [| discriminate].
    exists u. split; [reflexivity |]. apply Forall_forall. intros acc Hacc.
    destruct (addUser_loop_live _ _ _ _ _ Hadd acc Hacc) as (a & Ha & _).
    by eexists.
  - intros (u & Hu & Hlive). by eapply addUser_defined.
Qed.
